(** * External commands: the [hello.js] command module and the sync loader

    The repository holds one command module, [hello.js].  The first part of
    this development embeds that file: the JavaScript values it builds and
    reads, the regular expression it subscribes with, and its [register]
    function and message handler, both written as programs over the three
    operations of the dispatch handle.  The second part models the loader
    that the documentation describes (sync scheduler, module loader and
    registration bridge), which runs such modules. *)

From Stdlib Require Import ZArith NArith List String Ascii DecimalString Lia.
From stdpp Require Import gmap strings list fin_maps.

Set Default Proof Using "Type".
Set Warnings "-register-all".

(** ** JavaScript values *)

Module Js.

(** A JavaScript string is a sequence of UTF-16 code units. *)
Definition JsString : Type := list N.

(** The code units of an ASCII literal. *)
Fixpoint lit (s : string) : JsString :=
  match s with
  | EmptyString => []
  | String a rest => N_of_ascii a :: lit rest
  end.

(** Values.  [F] is the type of the function objects a value may hold: the
    data a chat transport delivers holds none ([F = Empty_set]).  Numbers
    are the integer-valued ones; a [z] of magnitude 10^21 or more, or one
    that no double holds, is outside what the model prints faithfully.  An
    object is the list of its own properties; built-in prototype members
    are not part of the model (none of them is named [chat], [id], [from],
    [first_name], [metadata], [register], [category] or [description]),
    nor are the own [name] and [length] of a function object: the file
    reads [name] from a plain object only and reads no property of a
    function. *)
Inductive JsValue (F : Type) : Type :=
| JUndefined
| JNull
| JBool (b : bool)
| JNum (z : Z)
| JStr (s : JsString)
| JArr (items : list (JsValue F))
| JObj (fields : list (JsString * JsValue F))
| JFun (f : F).

Arguments JUndefined {F}.
Arguments JNull {F}.
Arguments JBool {F} b.
Arguments JNum {F} z.
Arguments JStr {F} s.
Arguments JArr {F} items.
Arguments JObj {F} fields.
Arguments JFun {F} f.

(** Plain data: what a message is made of. *)
Definition Data : Type := JsValue Empty_set.

Inductive Nullish : Type := OfUndefined | OfNull.

(** What a program of this repository can throw. *)
Inductive JsError : Type :=
| CannotReadProperty (key : JsString) (base : Nullish)
    (* TypeError: Cannot read properties of undefined/null (reading 'key') *)
| CannotConvertToPrimitive
    (* TypeError: Cannot convert object to primitive value *)
| Raised (v : Data).
    (* any other thrown or rejected value *)

Inductive Result (A : Type) : Type :=
| Ok (a : A)
| Err (e : JsError).

Arguments Ok {A} a.
Arguments Err {A} e.

(** [typeof v] *)
Definition typeof {F} (v : JsValue F) : JsString :=
  match v with
  | JUndefined => lit "undefined"
  | JNull => lit "object"
  | JBool _ => lit "boolean"
  | JNum _ => lit "number"
  | JStr _ => lit "string"
  | JArr _ => lit "object"
  | JObj _ => lit "object"
  | JFun _ => lit "function"
  end.

(** The own property [k] of an object given by its property list.  When a
    key is written more than once, the last one counts, as in an object
    literal and in [JSON.parse]. *)
Definition own_field {F} (k : JsString) (fields : list (JsString * JsValue F))
  : option (JsValue F) :=
  snd <$> List.find (fun kv => bool_decide (fst kv = k)) (rev fields).

(** A canonical array index: decimal digits without a leading zero. *)
Definition is_digit (c : N) : bool := (48 <=? c)%N && (c <=? 57)%N.

Definition parse_index (k : JsString) : option nat :=
  match k with
  | [] => None
  | c :: rest =>
      if forallb is_digit k && (negb (c =? 48)%N || bool_decide (rest = []))
      then Some (N.to_nat (fold_left (fun acc d => acc * 10 + (d - 48))%N k 0%N))
      else None
  end.

(** [v.k] (and [v[k]] for a string key): reading a property of [undefined]
    or [null] throws; a property that is absent reads as [undefined]. *)
Definition get_prop {F} (v : JsValue F) (k : JsString) : Result (JsValue F) :=
  match v with
  | JUndefined => Err (CannotReadProperty k OfUndefined)
  | JNull => Err (CannotReadProperty k OfNull)
  | JObj fields =>
      match own_field k fields with
      | Some x => Ok x
      | None => Ok JUndefined
      end
  | JArr items =>
      if bool_decide (k = lit "length") then Ok (JNum (Z.of_nat (length items)))
      else match parse_index k with
           | Some i => Ok (nth i items JUndefined)
           | None => Ok JUndefined
           end
  | JStr s =>
      if bool_decide (k = lit "length") then Ok (JNum (Z.of_nat (length s)))
      else match parse_index k with
           | Some i =>
               match nth_error s i with
               | Some c => Ok (JStr [c])
               | None => Ok JUndefined
               end
           | None => Ok JUndefined
           end
  | JBool _ | JNum _ | JFun _ => Ok JUndefined
  end.

(** Decimal form of an integer-valued number (as [Number::toString] prints
    every integer of magnitude below 10^21). *)
Definition number_to_string (z : Z) : JsString :=
  lit (NilZero.string_of_int (Z.to_int z)).

(** [ToString] on data, the conversion a template literal applies.  A plain
    object prints as [[object Object]] unless it has an own [toString]
    property: that property is data, hence not callable, and no [valueOf]
    gives a primitive, so the conversion throws.  An array joins its
    elements with commas, [undefined] and [null] giving the empty string. *)
Fixpoint to_string (v : Data) : Result JsString :=
  match v with
  | JUndefined => Ok (lit "undefined")
  | JNull => Ok (lit "null")
  | JBool true => Ok (lit "true")
  | JBool false => Ok (lit "false")
  | JNum z => Ok (number_to_string z)
  | JStr s => Ok s
  | JArr items =>
      (fix join (l : list Data) : Result JsString :=
         match l with
         | [] => Ok []
         | x :: rest =>
             match
               match x with
               | JUndefined | JNull => Ok []
               | _ => to_string x
               end
             with
             | Err e => Err e
             | Ok s =>
                 match rest with
                 | [] => Ok s
                 | _ :: _ =>
                     match join rest with
                     | Err e => Err e
                     | Ok r => Ok (s ++ lit "," ++ r)
                     end
                 end
             end
         end) items
  | JObj fields =>
      match own_field (lit "toString") fields with
      | Some _ => Err CannotConvertToPrimitive
      | None => Ok (lit "[object Object]")
      end
  | JFun f => match f with end
  end.

End Js.

(** ** Regular expressions *)

Module Regex.
Import Js.

(** The regular-expression syntax that occurs in the repository: a literal
    code unit, the class escape [\s], the assertion [$] (no [m] flag: end
    of input only), concatenation and alternation.  A non-capturing group
    [(?: )] is plain grouping. *)
Inductive Regex : Type :=
| RChar (c : N)
| RSpace
| REnd
| RSeq (a b : Regex)
| RAlt (a b : Regex).

(** [\s]: the WhiteSpace and LineTerminator code points of ECMAScript. *)
Definition is_space (c : N) : bool :=
  ((9 <=? c) && (c <=? 13)
   || (c =? 32) || (c =? 160) || (c =? 5760)
   || (8192 <=? c) && (c <=? 8202)
   || (c =? 8232) || (c =? 8233) || (c =? 8239) || (c =? 8287)
   || (c =? 12288) || (c =? 65279))%N.

(** Backtracking matcher: [match_here r s k] matches [r] at the front of
    [s] and hands the rest of the input to the continuation [k]. *)
Fixpoint match_here (r : Regex) (s : JsString) (k : JsString -> bool) : bool :=
  match r with
  | RChar c =>
      match s with
      | x :: rest => (x =? c)%N && k rest
      | [] => false
      end
  | RSpace =>
      match s with
      | x :: rest => is_space x && k rest
      | [] => false
      end
  | REnd =>
      match s with
      | [] => k []
      | _ :: _ => false
      end
  | RSeq a b => match_here a s (fun rest => match_here b rest k)
  | RAlt a b => match_here a s k || match_here b s k
  end.

(** [re.exec(s) !== null] for a pattern without flags: the match is tried
    at every start position, from the left. *)
Fixpoint regex_test (r : Regex) (s : JsString) : bool :=
  match_here r s (fun _ => true)
  || match s with
     | [] => false
     | _ :: rest => regex_test r rest
     end.

(** The pattern of a literal text followed by [r]. *)
Fixpoint literal_then (text : JsString) (r : Regex) : Regex :=
  match text with
  | [] => r
  | c :: rest => RSeq (RChar c) (literal_then rest r)
  end.

End Regex.

(** ** Programs over the dispatch handle *)

Module Bot.
Import Js Regex.

(** A call on the dispatch handle.  [H] is the type of handler closures. *)
Inductive BotCall (H : Type) : Type :=
| OnText (pattern : Regex) (handler : H)        (* bot.onText(re, fn) *)
| OnEvent (kind : JsString) (handler : H)       (* bot.on(kind, fn) *)
| SendMessage (chatId : Data) (text : JsString). (* bot.sendMessage(id, text) *)

Arguments OnText {H} pattern handler.
Arguments OnEvent {H} kind handler.
Arguments SendMessage {H} chatId text.

(** A program: it returns, throws, or calls the handle and goes on with
    the value the call returned (for an awaited call, the value the promise
    resolved to). *)
Inductive Prog (H A : Type) : Type :=
| Ret (a : A)
| Throw (e : JsError)
| Call (c : BotCall H) (k : Data -> Prog H A).

Arguments Ret {H A} a.
Arguments Throw {H A} e.
Arguments Call {H A} c k.

Fixpoint prog_bind {H A B} (f : A -> Prog H B) (p : Prog H A) : Prog H B :=
  match p with
  | Ret a => f a
  | Throw e => Throw e
  | Call c k => Call c (fun v => prog_bind f (k v))
  end.

#[export] Instance prog_mbind {H} : MBind (Prog H) := @prog_bind H.
#[export] Instance prog_mret {H} : MRet (Prog H) := @Ret H.

(** An expression that may throw, used inside a program. *)
Definition eval {H A} (r : Result A) : Prog H A :=
  match r with
  | Ok a => Ret a
  | Err e => Throw e
  end.

(** A dispatch handle over a world [W]: each call changes the world and
    either returns a value or throws (or rejects). *)
Definition Handle (W H : Type) : Type := BotCall H -> W -> Result Data * W.

(** The outcome of a run: result, final world, and the calls made on the
    handle, in order. *)
Record Run (W H A : Type) : Type := mkRun {
  run_result : Result A;
  run_world : W;
  run_calls : list (BotCall H)
}.

Arguments mkRun {W H A} _ _ _.
Arguments run_result {W H A} _.
Arguments run_world {W H A} _.
Arguments run_calls {W H A} _.

Fixpoint run {W H A} (bot : Handle W H) (p : Prog H A) (w : W) : Run W H A :=
  match p with
  | Ret a => mkRun (Ok a) w []
  | Throw e => mkRun (Err e) w []
  | Call c k =>
      match bot c w with
      | (Ok v, w') =>
          let r := run bot (k v) w' in
          mkRun (run_result r) (run_world r) (c :: run_calls r)
      | (Err e, w') => mkRun (Err e) w' [c]
      end
  end.

Definition is_text_subscription {H} (c : BotCall H) : bool :=
  match c with OnText _ _ => true | _ => false end.

Definition is_event_subscription {H} (c : BotCall H) : bool :=
  match c with OnEvent _ _ => true | _ => false end.

Definition is_send {H} (c : BotCall H) : bool :=
  match c with SendMessage _ _ => true | _ => false end.

End Bot.

(** ** hello.js *)

Module Hello.
Import Js Regex Bot.

(** The function objects the file creates. *)
Inductive FunRef : Type :=
| FnRegister      (* function register(bot) *)
| FnHelloHandler. (* async (msg) => { ... } *)

(** The handler closures the file passes to the handle. *)
Inductive Closure : Type := HelloHandler.

Definition closure_fun (c : Closure) : FunRef :=
  match c with HelloHandler => FnHelloHandler end.

(** [const metadata = { name, category, description }] *)
Definition metadata : JsValue FunRef :=
  JObj [ (lit "name", JStr (lit "Hello World"));
         (lit "category", JStr (lit "Test"));
         (lit "description",
          JStr (lit "A simple external command to test the loader")) ].

(** [/\/hello(?:\s|$)/] *)
Definition hello_pattern : Regex :=
  literal_then (lit "/hello") (RAlt RSpace REnd).

(** The waving hand U+1F44B and the rocket U+1F680, as surrogate pairs. *)
Definition waving_hand : JsString := [55357; 56395]%N.
Definition rocket : JsString := [55357; 56960]%N.

(** The template literal of the reply, around the converted first name. *)
Definition greeting (first_name : JsString) : JsString :=
  waving_hand ++ lit " Hello " ++ first_name
  ++ lit "! This is an external command working perfectly! " ++ rocket.

(** The handler: [async (msg) => { ... }].  A throw inside it rejects the
    promise it returns; nothing in the file catches it. *)
Definition hello_handler (msg : Data) : Prog Closure unit :=
  chat ← eval (get_prop msg (lit "chat"));
  chatId ← eval (get_prop chat (lit "id"));
  from ← eval (get_prop msg (lit "from"));
  firstName ← eval (get_prop from (lit "first_name"));
  text ← eval (to_string firstName);
  Call (SendMessage chatId (greeting text)) (fun _ => Ret ()).

Definition closure_body (c : Closure) : Data -> Prog Closure unit :=
  match c with HelloHandler => hello_handler end.

(** [function register(bot) { bot.onText(/\/hello(?:\s|$)/, handler); }] *)
Definition register : Prog Closure unit :=
  Call (OnText hello_pattern HelloHandler) (fun _ => Ret ()).

(** [module.exports = { metadata, register }] *)
Definition module_exports : JsValue FunRef :=
  JObj [ (lit "metadata", metadata); (lit "register", JFun FnRegister) ].

(** What calling a function object of the file with the dispatch handle
    as its argument does.  The handle has no [chat] property, so the
    handler called that way throws on [msg.chat.id]. *)
Definition entry (f : FunRef) : Prog Closure unit :=
  match f with
  | FnRegister => register
  | FnHelloHandler => Throw (CannotReadProperty (lit "id") OfUndefined)
  end.

End Hello.

(** ** The loader *)

Module Loader.
Import Js Regex Bot.

Section Model.
Context {H : Type}.

(** Modelled from the spec: the DispatchSubscription of the data model, a
    pattern/handler or event/handler pair registered with the dispatch
    layer.  The loader itself is not part of this repository's sources. *)
Inductive Subscription : Type :=
| TextSub (pattern : Regex) (handler : H)
| EventSub (kind : JsString) (handler : H).

(** Modelled from the spec: the dispatch layer, an external collaborator
    known by its interface.  It hands out an opaque handle per subscription
    (here a counter, so that handles are never reused) and has a removal
    operation that tolerates a handle that is already absent.  [removals]
    lists the handles the removal operation was called with, latest
    first. *)
Record Dispatch : Type := mkDispatch {
  active : gmap nat Subscription;
  next_id : nat;
  removals : list nat
}.

(** Modelled from the spec: the dispatch layer at process start, with no
    subscription. *)
Definition empty_dispatch : Dispatch := mkDispatch ∅ 0 [].

(** Modelled from the spec: registering a pattern/handler pair returns a
    fresh handle. *)
Definition subscribe (s : Subscription) (d : Dispatch) : nat * Dispatch :=
  (next_id d,
   mkDispatch (<[next_id d := s]> (active d)) (S (next_id d)) (removals d)).

(** Modelled from the spec: the removal operation; removing an absent
    handle is not an error. *)
Definition remove (id : nat) (d : Dispatch) : Dispatch :=
  mkDispatch (delete id (active d)) (next_id d) (id :: removals d).

(** Modelled from the spec: the dispatch handle the Registration Bridge
    passes to a module's [register].  It exposes subscribe-on-text-pattern,
    subscribe-on-event and send-message, and notes every handle the module
    obtains, in order.  Sending a message makes no subscription. *)
Definition bridge_handle : Handle (Dispatch * list nat) H :=
  fun c w =>
    match c with
    | OnText re h =>
        let (id, d) := subscribe (TextSub re h) (fst w) in
        (Ok JUndefined, (d, snd w ++ [id]))
    | OnEvent kind h =>
        let (id, d) := subscribe (EventSub kind h) (fst w) in
        (Ok JUndefined, (d, snd w ++ [id]))
    | SendMessage _ _ => (Ok JUndefined, w)
    end.

(** Modelled from the spec: the ways [load] fails (section 4.3). *)
Inductive LoadFailure : Type :=
| ParseFailure
| TopLevelThrew (e : JsError)
| NoCallableRegister.

(** Modelled from the spec: LoadError, for a file that cannot be loaded or
    whose [register] throws (sections 4.3, 4.4 and 7). *)
Inductive LoadError : Type :=
| CannotLoad (why : LoadFailure)
| RegisterThrew (e : JsError).

(** Modelled from the spec: the metadata of a ModuleRecord. *)
Record Metadata : Type := mkMetadata {
  md_name : JsString;
  md_category : JsString;
  md_description : option JsString;
  md_commands : option (list JsString)
}.

(** Modelled from the spec: what loading a file gives, either a LoadError
    cause or the module's optional metadata and its [register] entry
    point. *)
Inductive ModuleFile : Type :=
| Broken (why : LoadFailure)
| Exports (md : option Metadata) (reg : Prog H unit).

(** Modelled from the spec: release of a list of handles through the
    removal operation of the dispatch layer. *)
Definition release (ids : list nat) (d : Dispatch) : Dispatch :=
  fold_left (fun acc id => remove id acc) ids d.

(** Modelled from the spec: Registration Bridge, [register(module,
    dispatchHandle)] (section 4.4).  The entry point runs against the
    bridge's handle; a throw is a LoadError and the subscriptions made
    before it are unregistered; on success the handles are returned for
    the record. *)
Definition bridge_register (reg : Prog H unit) (d : Dispatch)
  : (LoadError + list nat) * Dispatch :=
  let r := run bridge_handle reg (d, []) in
  match run_result r with
  | Ok _ => (inr (snd (run_world r)), fst (run_world r))
  | Err e => (inl (RegisterThrew e),
              release (snd (run_world r)) (fst (run_world r)))
  end.

(** Whether an entry point returns normally when every call on the handle
    returns [undefined], as the bridge's handle does, and how many
    subscriptions it asks for on the way. *)
Fixpoint completes {A} (p : Prog H A) : bool :=
  match p with
  | Ret _ => true
  | Throw _ => false
  | Call _ k => completes (k JUndefined)
  end.

Fixpoint requested {A} (p : Prog H A) : nat :=
  match p with
  | Ret _ | Throw _ => 0
  | Call c k => (if is_send c then 0 else 1) + requested (k JUndefined)
  end.

(** Modelled from the spec: load status of a ModuleRecord. *)
Inductive LoadStatus : Type := Loaded | Failed | Unloaded.

(** Modelled from the spec: ModuleRecord (section 3); its path is the key
    it is tracked under. *)
Record ModuleRecord : Type := mkRecord {
  rec_fingerprint : N;
  rec_metadata : option Metadata;
  rec_status : LoadStatus;
  rec_subs : list nat
}.

(** Modelled from the spec: a candidate of Module Discovery, the content
    fingerprint of the file together with what loading that content
    gives. *)
Record Candidate : Type := mkCandidate {
  cand_fingerprint : N;
  cand_file : ModuleFile
}.

(** Modelled from the spec: the calls on the Module Loader, [load(path)]
    and [unload(record)], as the scheduler makes them; kept to count
    them. *)
Inductive LoaderCall : Type :=
| LoadCall (path : string)
| UnloadCall (path : string).

(** Modelled from the spec: the Sync Scheduler's state: the map from source
    path to ModuleRecord it owns, the dispatch layer it registers with,
    whether a first reconciliation has run, and for the latest cycle the
    loader calls made and the failures reported. *)
Record Scheduler : Type := mkScheduler {
  tracked : gmap string ModuleRecord;
  dispatch : Dispatch;
  first_done : bool;
  calls : list LoaderCall;
  failures : list (string * LoadError)
}.

(** Modelled from the spec: the scheduler at process start, its map
    empty. *)
Definition init_scheduler : Scheduler :=
  mkScheduler ∅ empty_dispatch false [] [].

(** Modelled from the spec: [unload(record)] (section 4.3), on the record
    tracked at [p]; the record stays, Unloaded and owning nothing. *)
Definition unload_path (p : string) (r : ModuleRecord) (st : Scheduler)
  : Scheduler :=
  mkScheduler
    (<[p := mkRecord (rec_fingerprint r) (rec_metadata r) Unloaded []]>
       (tracked st))
    (release (rec_subs r) (dispatch st))
    (first_done st)
    (calls st ++ [UnloadCall p])
    (failures st).

(** Modelled from the spec: a removed path, "unload then delete the
    record" (section 4.5). *)
Definition remove_path (p : string) (st : Scheduler) : Scheduler :=
  match tracked st !! p with
  | None => st
  | Some r =>
      let st' := unload_path p r st in
      mkScheduler (delete p (tracked st')) (dispatch st') (first_done st')
        (calls st') (failures st')
  end.

(** Modelled from the spec: a load that failed: the path is marked Failed
    with no subscription and the failure is reported. *)
Definition record_failure (p : string) (fp : N) (md : option Metadata)
    (e : LoadError) (d : Dispatch) (st : Scheduler) : Scheduler :=
  mkScheduler (<[p := mkRecord fp md Failed []]> (tracked st)) d
    (first_done st) (calls st ++ [LoadCall p]) (failures st ++ [(p, e)]).

(** Modelled from the spec: "attempt load+register; record outcome"
    (sections 4.3 to 4.5). *)
Definition load_and_register (p : string) (c : Candidate) (st : Scheduler)
  : Scheduler :=
  match cand_file c with
  | Broken why =>
      record_failure p (cand_fingerprint c) None (CannotLoad why)
        (dispatch st) st
  | Exports md reg =>
      match bridge_register reg (dispatch st) with
      | (inr subs, d) =>
          mkScheduler
            (<[p := mkRecord (cand_fingerprint c) md Loaded subs]> (tracked st))
            d (first_done st) (calls st ++ [LoadCall p]) (failures st)
      | (inl e, d) => record_failure p (cand_fingerprint c) md e d st
      end
  end.

(** Modelled from the spec: one candidate of the Reconciling state: added
    (new path), changed (tracked path, fingerprint differs: unload the old
    record, then load and register as if added), or unchanged.  This is
    the order of section 4.5 and of the testable properties of section 8;
    sections 4.3 and 7 speak of a previous working version that is left
    registered, which this order does not do. *)
Definition reconcile_candidate (p : string) (c : Candidate) (st : Scheduler)
  : Scheduler :=
  match tracked st !! p with
  | None => load_and_register p c st
  | Some r =>
      if bool_decide (rec_fingerprint r = cand_fingerprint c) then st
      else load_and_register p c (unload_path p r st)
  end.

(** The turn of a candidate that has to be loaded: a changed path is
    unloaded first. *)
Definition turn_start (p : string) (old : option ModuleRecord) (st : Scheduler)
  : Scheduler :=
  match old with
  | Some r => unload_path p r st
  | None => st
  end.

Definition turn_calls (p : string) (old : option ModuleRecord) : list LoaderCall :=
  match old with
  | Some _ => [UnloadCall p; LoadCall p]
  | None => [LoadCall p]
  end.

(** Modelled from the spec: the removed set, the tracked paths that are no
    longer among the candidates. *)
Definition removed_paths (snap : gmap string Candidate) (st : Scheduler)
  : list string :=
  List.filter (fun p => bool_decide (snap !! p = None))
    (map fst (map_to_list (tracked st))).

(** Modelled from the spec: the Reconciling state (section 4.5): removed
    paths first, then every candidate. *)
Definition reconcile (snap : gmap string Candidate) (st : Scheduler)
  : Scheduler :=
  fold_left (fun acc pc => reconcile_candidate (fst pc) (snd pc) acc)
    (map_to_list snap)
    (fold_left (fun acc p => remove_path p acc) (removed_paths snap st) st).

(** Modelled from the spec: what the Repository Mirror reports in the
    Syncing state: a failure (AcquisitionError or SyncError), or whether
    the revision changed. *)
Inductive MirrorOutcome : Type :=
| MirrorFailed
| Updated (revision_changed : bool).

(** Modelled from the spec: what one cycle gets from outside, the mirror's
    report and the candidate set of Module Discovery. *)
Record CycleInput : Type := mkCycle {
  mirror : MirrorOutcome;
  candidates : gmap string Candidate
}.

(** Modelled from the spec: a cycle starts with an empty SyncCycleResult
    (here the calls and the failures of the cycle). *)
Definition begin_cycle (st : Scheduler) : Scheduler :=
  mkScheduler (tracked st) (dispatch st) (first_done st) [] [].

(** Modelled from the spec: whether the cycle enters Reconciling: the
    mirror must have updated, and an unchanged revision is skipped except
    on the first pass, which is mandatory. *)
Definition reconciles (inp : CycleInput) (st : Scheduler) : bool :=
  match mirror inp with
  | MirrorFailed => false
  | Updated changed => changed || negb (first_done st)
  end.

(** Modelled from the spec: one sync cycle, Idle to Syncing to Reconciling
    and back to Idle (section 4.5).  A mirror failure keeps the previous
    state. *)
Definition sync_cycle (inp : CycleInput) (st : Scheduler) : Scheduler :=
  let st0 := begin_cycle st in
  if reconciles inp st then
    let st1 := reconcile (candidates inp) st0 in
    mkScheduler (tracked st1) (dispatch st1) true (calls st1) (failures st1)
  else st0.

(** Modelled from the spec: the scheduler after a sequence of cycles, from
    process start; cycles never overlap. *)
Definition run_cycles (inputs : list CycleInput) : Scheduler :=
  fold_left (fun st inp => sync_cycle inp st) inputs init_scheduler.

(** The tracked fingerprints are those of the candidate set. *)
Definition in_sync (st : Scheduler) (snap : gmap string Candidate) : Prop :=
  ∀ p, rec_fingerprint <$> (tracked st !! p) = cand_fingerprint <$> (snap !! p).

Definition same_fingerprints (a b : gmap string Candidate) : Prop :=
  ∀ p, cand_fingerprint <$> (a !! p) = cand_fingerprint <$> (b !! p).

(** The mirror is truthful along a run: when it reports an unchanged
    revision, the candidates carry the fingerprints of the last cycle whose
    mirror update succeeded ([last]). *)
Fixpoint truthful (last : option (gmap string Candidate))
    (inputs : list CycleInput) : Prop :=
  match inputs with
  | [] => True
  | inp :: rest =>
      match mirror inp with
      | MirrorFailed => truthful last rest
      | Updated changed =>
          (changed = false →
           ∀ prev, last = Some prev → same_fingerprints prev (candidates inp))
          ∧ truthful (Some (candidates inp)) rest
      end
  end.

(** The candidates of the last cycle whose mirror update succeeded. *)
Definition last_synced (last : option (gmap string Candidate))
    (inputs : list CycleInput) : option (gmap string Candidate) :=
  fold_left
    (fun acc inp =>
       match mirror inp with
       | MirrorFailed => acc
       | Updated _ => Some (candidates inp)
       end) inputs last.

(** Whether loading the candidate and registering it succeeds. *)
Definition loads (c : Candidate) : bool :=
  match cand_file c with
  | Broken _ => false
  | Exports _ reg => completes reg
  end.

(** The handles owned by the record tracked at [p], if any. *)
Definition subs_at (st : Scheduler) (p : string) : list nat :=
  match tracked st !! p with
  | Some r => rec_subs r
  | None => []
  end.

Definition status_at (st : Scheduler) (p : string) : option LoadStatus :=
  rec_status <$> (tracked st !! p).

Definition calls_about (p : string) (cs : list LoaderCall) : list LoaderCall :=
  List.filter
    (fun c => match c with
              | LoadCall q | UnloadCall q => bool_decide (q = p)
              end) cs.

Definition failures_about (p : string) (fs : list (string * LoadError))
  : list (string * LoadError) :=
  List.filter (fun pe => bool_decide (fst pe = p)) fs.

(** What the scheduler holds about one path: its record, and the loader
    calls and failure reports of the cycle that concern it. *)
Definition path_view (st : Scheduler) (p : string)
  : option ModuleRecord * list LoaderCall * list (string * LoadError) :=
  (tracked st !! p, calls_about p (calls st), failures_about p (failures st)).

(** The record tracked at [p] owns the handle [id]. *)
Definition owns (t : gmap string ModuleRecord) (p : string) (id : nat) : Prop :=
  ∃ r, t !! p = Some r ∧ id ∈ rec_subs r.

(** The bookkeeping invariant between the tracked records and the dispatch
    layer: the active handles are exactly the owned ones; only a Loaded
    record owns any; a handle has one owner and occurs once in its record;
    the issued handles are the active and the removed ones; no handle went
    through the removal operation twice, and a removed handle is not
    active. *)
Record Consistent (t : gmap string ModuleRecord) (d : Dispatch) : Prop :=
  mkConsistent {
    inv_active : ∀ id, is_Some (active d !! id) ↔ ∃ p, owns t p id;
    inv_loaded : ∀ p r, t !! p = Some r → rec_status r ≠ Loaded → rec_subs r = [];
    inv_nodup : ∀ p r, t !! p = Some r → NoDup (rec_subs r);
    inv_owner : ∀ p1 p2 id, owns t p1 id → owns t p2 id → p1 = p2;
    inv_issued : ∀ id,
      id < next_id d ↔ is_Some (active d !! id) ∨ id ∈ removals d;
    inv_once : NoDup (removals d);
    inv_gone : ∀ id, id ∈ removals d → active d !! id = None
  }.



(** Modelled from the spec: the shape check of [load] on what a file
    exports (sections 4.3 and 6): a callable [register] is required, the
    metadata is optional and needs a name and a category.  [entry] gives
    what calling a function object of the file with the dispatch handle
    does.  First, reading a string member. *)
Definition read_string {F} (v : JsValue F) (k : JsString) : option JsString :=
  match get_prop v k with
  | Ok (JStr s) => Some s
  | _ => None
  end.

(** Modelled from the spec: the optional metadata of a module, kept when
    it has a name and a category. *)
Definition metadata_of {F} (exports : JsValue F) : option Metadata :=
  match get_prop exports (lit "metadata") with
  | Ok (JObj fields) =>
      match read_string (JObj fields) (lit "name"),
            read_string (JObj fields) (lit "category") with
      | Some n, Some c =>
          Some (mkMetadata n c (read_string (JObj fields) (lit "description"))
                  None)
      | _, _ => None
      end
  | _ => None
  end.

(** Modelled from the spec: [load] on the exported object: without a
    callable [register] it is a LoadError. *)
Definition load_exports {F} (entry : F -> Prog H unit) (exports : JsValue F)
  : ModuleFile :=
  match get_prop exports (lit "register") with
  | Ok (JFun f) => Exports (metadata_of exports) (entry f)
  | _ => Broken NoCallableRegister
  end.

End Model.

Arguments Subscription : clear implicits.
Arguments Dispatch : clear implicits.
Arguments ModuleFile : clear implicits.
Arguments Candidate : clear implicits.
Arguments Scheduler : clear implicits.
Arguments CycleInput : clear implicits.

End Loader.

(** ** Concrete files, cycles and messages *)

Module Scenario.
Import Js Regex Bot Hello Loader.

(** What the loader gets from [hello.js]. *)
Definition hello_file : ModuleFile Closure :=
  load_exports Hello.entry Hello.module_exports.

Definition hello_v1 : Candidate Closure := mkCandidate 11 hello_file.

(** An edit of [hello.js] whose [register] subscribes as before and then
    throws. *)
Definition hello_throwing : Candidate Closure :=
  mkCandidate 13
    (Exports None (Hello.register ≫= fun _ => Throw (Raised JNull))).

(** A second file that throws at top level. *)
Definition broken_js : Candidate Closure :=
  mkCandidate 7 (Broken (TopLevelThrew (Raised JNull))).

Definition repo_v1 : gmap string (Candidate Closure) :=
  {[ "hello.js"%string := hello_v1 ]}.

Definition first_cycle : CycleInput Closure := mkCycle (Updated true) repo_v1.

Definition quiet_cycle : CycleInput Closure := mkCycle (Updated false) repo_v1.

Definition mixed_cycle : CycleInput Closure :=
  mkCycle (Updated true)
    (<[ "broken.js"%string := broken_js ]> repo_v1).


(** [hello.js] is edited into a version whose [register] throws. *)
Definition throwing_cycle : CycleInput Closure :=
  mkCycle (Updated true) {[ "hello.js"%string := hello_throwing ]}.

(** The record of [hello.js] after the first cycle. *)
Definition hello_record : ModuleRecord :=
  mkRecord 11 (metadata_of Hello.module_exports) Loaded [0].

(** A message from Bob in chat 42, and a channel post without sender. *)
Definition message_from_bob : Data :=
  JObj [ (lit "message_id", JNum 1);
         (lit "from", JObj [ (lit "id", JNum 7);
                             (lit "first_name", JStr (lit "Bob")) ]);
         (lit "chat", JObj [ (lit "id", JNum 42);
                             (lit "type", JStr (lit "private")) ]);
         (lit "text", JStr (lit "/hello")) ].

Definition channel_post : Data :=
  JObj [ (lit "message_id", JNum 2);
         (lit "chat", JObj [ (lit "id", JNum (-100));
                             (lit "type", JStr (lit "channel")) ]);
         (lit "text", JStr (lit "/hello")) ].

(** A handle whose calls all return [undefined]. *)
Definition silent_bot : Handle unit Closure := fun _ w => (Ok JUndefined, w).

End Scenario.

(** ** Further uses of hello.js *)

Module HelloCases.
Import Js Regex Bot Hello.

(** Whether a value is [undefined] or [null], and which. *)
Definition nullish (v : Data) : option Nullish :=
  match v with
  | JUndefined => Some OfUndefined
  | JNull => Some OfNull
  | _ => None
  end.

(** [register(bot)] called [n] times in a row on the same handle. *)
Fixpoint register_times (n : nat) : Prog Closure unit :=
  match n with
  | 0 => Ret ()
  | S k => Hello.register ≫= fun _ => register_times k
  end.

(** A handle whose calls all fail, as when the transport is down. *)
Definition transport_down : Data := JStr (lit "ETELEGRAM").

Definition failing_bot : Handle unit Closure :=
  fun _ w => (Err (Raised transport_down), w).

(** A message whose [chat] and [from] are empty objects, and one that has
    neither. *)
Definition bare_message : Data :=
  JObj [ (lit "chat", JObj []); (lit "from", JObj []) ].

Definition empty_message : Data := JObj [].

End HelloCases.

(** * Properties of hello.js *)

Section HelloJs.
Import Js Regex Bot Hello Loader.

(** C6: [hello.js] meets the module file contract: it exports an object
    whose [register] member is a function (the [register] of the file) and
    whose [metadata] member is an object with the string name 'Hello
    World', the string category 'Test' and a string description; the
    loader's shape check accepts it with that metadata. *)
Theorem hello_module_contract :
  typeof module_exports = lit "object"
  ∧ get_prop module_exports (lit "register") = Ok (JFun FnRegister)
  ∧ typeof (JFun FnRegister : JsValue FunRef) = lit "function"
  ∧ entry FnRegister = register
  ∧ get_prop module_exports (lit "metadata") = Ok metadata
  ∧ typeof metadata = lit "object"
  ∧ get_prop metadata (lit "name") = Ok (JStr (lit "Hello World"))
  ∧ get_prop metadata (lit "category") = Ok (JStr (lit "Test"))
  ∧ (∃ d, get_prop metadata (lit "description") = Ok (JStr d)
          ∧ typeof (JStr d : JsValue FunRef) = lit "string")
  ∧ ∃ d, load_exports entry module_exports
         = Exports (H := Closure)
             (Some (mkMetadata (lit "Hello World") (lit "Test") (Some d) None))
             register.
Proof.
  repeat split; try reflexivity.
  - eexists; split; reflexivity.
  - eexists; reflexivity.
Qed.

(** *** The pattern *)

Lemma match_literal_then (t : JsString) (r : Regex) (s : JsString) k :
  match_here (literal_then t r) s k = true
  ↔ ∃ rest, s = t ++ rest ∧ match_here r rest k = true.
Proof.
  revert s. induction t as [|c t IH]; intros s; simpl.
  - split; [intros Hm; by exists s | by intros (rest & -> & Hm)].
  - destruct s as [|x s].
    + split; [done | by intros (rest & ? & _)].
    + rewrite andb_true_iff, N.eqb_eq, IH. split.
      * intros (-> & rest & -> & Hm). by exists rest.
      * intros (rest & Heq & Hm). injection Heq as -> ->. eauto.
Qed.

Lemma regex_test_somewhere (r : Regex) (s : JsString) :
  regex_test r s = true
  ↔ ∃ pre suf, s = pre ++ suf ∧ match_here r suf (fun _ => true) = true.
Proof.
  induction s as [|x s IH]; simpl; rewrite orb_true_iff.
  - split.
    + intros [Hm | ?]; [by exists [], [] | done].
    + intros (pre & suf & Heq & Hm). symmetry in Heq.
      apply app_eq_nil in Heq as [-> ->]. by left.
  - rewrite IH. split.
    + intros [Hm | (pre & suf & -> & Hm)].
      * by exists [], (x :: s).
      * by exists (x :: pre), suf.
    + intros (pre & suf & Heq & Hm). destruct pre as [|y pre]; simpl in Heq.
      * subst suf. by left.
      * injection Heq as -> ->. right. eauto.
Qed.

Lemma match_space_or_end (s : JsString) :
  match_here (RAlt RSpace REnd) s (fun _ => true) = true
  ↔ s = [] ∨ ∃ c rest, s = c :: rest ∧ is_space c = true.
Proof.
  destruct s as [|c rest]; simpl.
  - split; [by left | done].
  - rewrite !andb_true_r, orb_false_r. split.
    + intros Hc. right. eauto.
    + intros [? | (c' & rest' & Heq & Hc)]; [done |]. by injection Heq as -> ->.
Qed.

(** C9: the pattern is unanchored: it matches exactly the texts that
    contain "/hello" followed by a whitespace character or by the end of
    the text; so "/hello", "/hello there" and "say /hello" match, and
    "/helloworld" and "/hello@botname" do not. *)
Theorem hello_pattern_unanchored :
  (∀ s : JsString,
      regex_test hello_pattern s = true
      ↔ ∃ pre post, s = pre ++ lit "/hello" ++ post
                    ∧ (post = [] ∨ ∃ c rest, post = c :: rest ∧ is_space c = true))
  ∧ regex_test hello_pattern (lit "/hello") = true
  ∧ regex_test hello_pattern (lit "/hello there") = true
  ∧ regex_test hello_pattern (lit "say /hello") = true
  ∧ regex_test hello_pattern (lit "/helloworld") = false
  ∧ regex_test hello_pattern (lit "/hello@botname") = false.
Proof.
  split; [| repeat split; reflexivity].
  intros s. rewrite regex_test_somewhere. unfold hello_pattern. split.
  - intros (pre & suf & -> & Hm).
    apply match_literal_then in Hm as (post & -> & Hm).
    apply match_space_or_end in Hm. by exists pre, post.
  - intros (pre & post & -> & Hpost).
    exists pre, (lit "/hello" ++ post). split; [done |].
    apply match_literal_then. exists post. split; [done |].
    by apply match_space_or_end.
Qed.

(** *** [register] *)

(** C7: whatever the dispatch handle, [register] calls it exactly once,
    with subscribe-on-text-pattern and a pattern that matches "/hello"; it
    makes no event subscription.  Through the registration bridge this is
    exactly one new subscription. *)
Theorem register_subscribes_once (W : Type) (bot : Handle W Closure) (w : W) :
  run_calls (run bot register w) = [OnText hello_pattern HelloHandler]
  ∧ List.filter is_text_subscription (run_calls (run bot register w))
    = [OnText hello_pattern HelloHandler]
  ∧ List.filter is_event_subscription (run_calls (run bot register w)) = []
  ∧ regex_test hello_pattern (lit "/hello") = true
  ∧ ∀ d : Dispatch Closure,
      bridge_register register d
      = (inr [next_id d],
         mkDispatch
           (<[next_id d := TextSub hello_pattern HelloHandler]> (active d))
           (S (next_id d)) (removals d)).
Proof.
  assert (Hcalls :
    run_calls (run bot register w) = [OnText hello_pattern HelloHandler]).
  { unfold register. simpl.
    destruct (bot (OnText hello_pattern HelloHandler) w) as [[v | e] w'];
      reflexivity. }
  rewrite Hcalls. repeat split; reflexivity.
Qed.

(** *** The handler *)

Lemma handler_reads_then_sends (msg chat chat_id from first_name : Data)
    (text : JsString) :
  get_prop msg (lit "chat") = Ok chat →
  get_prop chat (lit "id") = Ok chat_id →
  get_prop msg (lit "from") = Ok from →
  get_prop from (lit "first_name") = Ok first_name →
  to_string first_name = Ok text →
  hello_handler msg
  = Call (SendMessage chat_id (greeting text)) (fun _ => Ret ()).
Proof.
  intros Hchat Hid Hfrom Hname Htext. unfold hello_handler.
  rewrite Hchat; cbn -[lit get_prop to_string greeting].
  rewrite Hid; cbn -[lit get_prop to_string greeting].
  rewrite Hfrom; cbn -[lit get_prop to_string greeting].
  rewrite Hname; cbn -[lit get_prop to_string greeting].
  by rewrite Htext.
Qed.

Lemma run_single_call {W} (bot : Handle W Closure) (c : BotCall Closure) w :
  run_calls (run bot (Call c (fun _ => Ret ())) w) = [c].
Proof. simpl. by destruct (bot c w) as [[v | e] w']. Qed.

(** C10: the handler is partial.  For a message carrying [chat.id] and
    [from.first_name] (a first name that converts to a string, as every
    string does) it calls send-message exactly once, to the chat id of the
    message, whatever the handle; for a message without [from] it throws
    and sends nothing, the throw being the TypeError of reading
    [first_name] once [chat.id] has been read. *)
Theorem handler_partial :
  (∀ (W : Type) (bot : Handle W Closure) (w : W)
     (msg chat chat_id from first_name : Data) (text : JsString),
      get_prop msg (lit "chat") = Ok chat →
      get_prop chat (lit "id") = Ok chat_id →
      get_prop msg (lit "from") = Ok from →
      get_prop from (lit "first_name") = Ok first_name →
      to_string first_name = Ok text →
      run_calls (run bot (hello_handler msg) w)
      = [SendMessage chat_id (greeting text)])
  ∧ (∀ name : JsString, to_string (JStr name) = Ok name)
  ∧ (∀ (W : Type) (bot : Handle W Closure) (w : W) (msg : Data),
      get_prop msg (lit "from") = Ok JUndefined →
      run_calls (run bot (hello_handler msg) w) = []
      ∧ (∃ e, run_result (run bot (hello_handler msg) w) = Err e)
      ∧ ∀ chat chat_id,
          get_prop msg (lit "chat") = Ok chat →
          get_prop chat (lit "id") = Ok chat_id →
          run_result (run bot (hello_handler msg) w)
          = Err (CannotReadProperty (lit "first_name") OfUndefined)).
Proof.
  split; [| split; [done |]].
  - intros W bot w msg chat chat_id from first_name text ?????.
    erewrite handler_reads_then_sends by eassumption.
    apply run_single_call.
  - intros W bot w msg Hfrom. unfold hello_handler.
    destruct (get_prop msg (lit "chat")) as [chat | e] eqn:Hchat;
      cbn -[lit get_prop to_string greeting];
      [| split; [done | split; [by eexists | by intros ???]]].
    destruct (get_prop chat (lit "id")) as [chat_id | e] eqn:Hid;
      cbn -[lit get_prop to_string greeting];
      [| split; [done | split; [by eexists | intros ?? [= <-]; congruence]]].
    rewrite Hfrom; cbn -[lit get_prop to_string greeting].
    split; [done | split; [by eexists | done]].
Qed.

(** The two sample messages: Bob is greeted once in chat 42; the channel
    post, which has no sender, makes the handler throw. *)
Lemma handler_partial_witness :
  run_calls (run Scenario.silent_bot (hello_handler Scenario.message_from_bob) ())
  = [SendMessage (JNum 42) (greeting (lit "Bob"))]
  ∧ run_result (run Scenario.silent_bot (hello_handler Scenario.channel_post) ())
    = Err (CannotReadProperty (lit "first_name") OfUndefined).
Proof.
  split.
  - apply (proj1 handler_partial unit Scenario.silent_bot ()
             Scenario.message_from_bob
             (JObj [ (lit "id", JNum 42); (lit "type", JStr (lit "private")) ])
             (JNum 42)
             (JObj [ (lit "id", JNum 7); (lit "first_name", JStr (lit "Bob")) ])
             (JStr (lit "Bob")) (lit "Bob")); reflexivity.
  - apply (proj2 (proj2 (proj2 handler_partial) unit Scenario.silent_bot ()
                    Scenario.channel_post eq_refl))
      with (chat := JObj [ (lit "id", JNum (-100));
                           (lit "type", JStr (lit "channel")) ])
           (chat_id := JNum (-100)); reflexivity.
Defined.

End HelloJs.

(** * Properties of the loader *)

Section LoaderFacts.
Import Js Regex Bot Loader.
Context {H : Type}.

Implicit Types (d : Dispatch H) (st : Scheduler H) (r : ModuleRecord).
Implicit Types (c : Candidate H) (snap : gmap string (Candidate H)).
Implicit Types (p q : string) (id : nat) (ids : list nat).

(** *** The dispatch layer *)

Lemma release_next ids d : next_id (release ids d) = next_id d.
Proof.
  revert d. induction ids as [|i ids IH]; intros d; [done |].
  cbn [release fold_left]. fold (release ids (remove i d)). by rewrite IH.
Qed.

Lemma release_removals ids d :
  removals (release ids d) = reverse ids ++ removals d.
Proof.
  revert d. induction ids as [|i ids IH]; intros d; [done |].
  cbn [release fold_left] in *. fold (release ids (remove i d)).
  rewrite IH, reverse_cons. simpl. by rewrite <- app_assoc.
Qed.

Lemma release_lookup ids d id :
  active (release ids d) !! id
  = if decide (id ∈ ids) then None else active d !! id.
Proof.
  revert d. induction ids as [|i ids IH]; intros d.
  - by rewrite decide_False by apply not_elem_of_nil.
  - cbn [release fold_left]. fold (release ids (remove i d)). rewrite IH.
    destruct (decide (id ∈ ids)) as [Hin | Hnin].
    + by rewrite decide_True by (by apply list_elem_of_further).
    + cbn [remove active]. destruct (decide (id = i)) as [-> | Hne].
      * rewrite lookup_delete_eq.
        by rewrite decide_True by apply list_elem_of_here.
      * rewrite lookup_delete_ne by done.
        rewrite decide_False; [done |].
        intros [? | ?]%elem_of_cons; done.
Qed.

(** What a run against the bridge's handle does to the dispatch layer: it
    issues the next [requested p] handles, activates them and touches
    nothing else; it ends normally exactly when [completes p]. *)
Lemma run_bridge_spec {A} (p : Prog H A) d (made : list nat) :
  let r := run bridge_handle p (d, made) in
  snd (run_world r) = made ++ seq (next_id d) (requested p)
  ∧ next_id (fst (run_world r)) = next_id d + requested p
  ∧ removals (fst (run_world r)) = removals d
  ∧ (∀ id, id ∉ seq (next_id d) (requested p) →
        active (fst (run_world r)) !! id = active d !! id)
  ∧ (∀ id, id ∈ seq (next_id d) (requested p) →
        is_Some (active (fst (run_world r)) !! id))
  ∧ (if completes p then ∃ a, run_result r = Ok a
     else ∃ e, run_result r = Err e).
Proof.
  revert d made. induction p as [a | e | c k IH]; intros d made.
  - simpl. rewrite app_nil_r, Nat.add_0_r.
    repeat split; eauto. intros id Hin. by apply elem_of_nil in Hin.
  - simpl. rewrite app_nil_r, Nat.add_0_r.
    repeat split; eauto. intros id Hin. by apply elem_of_nil in Hin.
  - assert (Hsub : ∀ s,
      let r := run bridge_handle (k JUndefined)
                 (snd (subscribe s d), made ++ [next_id d]) in
      snd (run_world r)
      = made ++ seq (next_id d) (S (requested (k JUndefined)))
      ∧ next_id (fst (run_world r))
        = next_id d + S (requested (k JUndefined))
      ∧ removals (fst (run_world r)) = removals d
      ∧ (∀ id, id ∉ seq (next_id d) (S (requested (k JUndefined))) →
            active (fst (run_world r)) !! id = active d !! id)
      ∧ (∀ id, id ∈ seq (next_id d) (S (requested (k JUndefined))) →
            is_Some (active (fst (run_world r)) !! id))
      ∧ (if completes (k JUndefined) then ∃ a, run_result r = Ok a
         else ∃ e, run_result r = Err e)).
    { intros s.
      destruct (IH JUndefined (snd (subscribe s d)) (made ++ [next_id d]))
        as (Hmade & Hnext & Hrem & Hold & Hnew & Hres).
      cbn [subscribe snd next_id removals active] in *.
      split; [by rewrite Hmade, <- app_assoc |].
      split; [lia |]. split; [done |]. split; [| split; [| done]].
      - intros id Hid. cbn [seq] in Hid.
        apply not_elem_of_cons in Hid as [Hne Hid].
        rewrite Hold by done. by rewrite lookup_insert_ne.
      - intros id Hid. cbn [seq] in Hid.
        destruct (decide (id ∈ seq (S (next_id d)) (requested (k JUndefined))))
          as [Hin | Hnin]; [by apply Hnew |].
        apply elem_of_cons in Hid as [-> | ?]; [| done].
        rewrite Hold by done. rewrite lookup_insert_eq. eauto. }
    destruct c as [re h | kind h | chat text].
    + apply (Hsub (TextSub re h)).
    + apply (Hsub (EventSub kind h)).
    + apply (IH JUndefined d made).
Qed.

Lemma bridge_register_ok (reg : Prog H unit) d :
  completes reg = true →
  ∃ d', bridge_register reg d = (inr (seq (next_id d) (requested reg)), d')
        ∧ next_id d' = next_id d + requested reg
        ∧ removals d' = removals d
        ∧ (∀ id, id ∉ seq (next_id d) (requested reg) →
              active d' !! id = active d !! id)
        ∧ (∀ id, id ∈ seq (next_id d) (requested reg) →
              is_Some (active d' !! id)).
Proof.
  intros Hok. unfold bridge_register.
  destruct (run_bridge_spec reg d []) as (Hmade & Hnext & Hrem & Hold & Hnew & Hres).
  rewrite Hok in Hres. destruct Hres as [a Hres]. rewrite Hres.
  rewrite Hmade. simpl. eauto 10.
Qed.

Lemma bridge_register_throws (reg : Prog H unit) d :
  completes reg = false →
  ∃ e d', bridge_register reg d = (inl (RegisterThrew e), d')
        ∧ next_id d' = next_id d + requested reg
        ∧ removals d'
          = reverse (seq (next_id d) (requested reg)) ++ removals d
        ∧ (∀ id, id ∉ seq (next_id d) (requested reg) →
              active d' !! id = active d !! id)
        ∧ (∀ id, id ∈ seq (next_id d) (requested reg) →
              active d' !! id = None).
Proof.
  intros Hno. unfold bridge_register.
  destruct (run_bridge_spec reg d []) as (Hmade & Hnext & Hrem & Hold & Hnew & Hres).
  rewrite Hno in Hres. destruct Hres as [e Hres]. rewrite Hres.
  rewrite Hmade. simpl. eexists _, _. split; [done |].
  rewrite release_next, release_removals, Hrem.
  split; [done |]. split; [done |]. split.
  - intros id Hid. rewrite release_lookup, decide_False by done. by apply Hold.
  - intros id Hid. by rewrite release_lookup, decide_True.
Qed.

(** *** The invariant is kept by every step *)

Lemma owns_insert_empty (t : gmap string ModuleRecord) p r0 q id :
  rec_subs r0 = [] →
  (∀ r, t !! p = Some r → rec_subs r = []) →
  owns (<[p := r0]> t) q id ↔ owns t q id.
Proof.
  intros Hr0 Hold. unfold owns. destruct (decide (p = q)) as [<- | Hne].
  - rewrite lookup_insert_eq. split.
    + intros (r & [= <-] & Hin). rewrite Hr0 in Hin. by apply elem_of_nil in Hin.
    + intros (r & Hr & Hin). rewrite (Hold r Hr) in Hin.
      by apply elem_of_nil in Hin.
  - by rewrite lookup_insert_ne.
Qed.

Lemma owns_delete_empty (t : gmap string ModuleRecord) p q id :
  (∀ r, t !! p = Some r → rec_subs r = []) →
  owns (delete p t) q id ↔ owns t q id.
Proof.
  intros Hold. unfold owns. destruct (decide (p = q)) as [<- | Hne].
  - rewrite lookup_delete_eq. split.
    + by intros (r & ? & _).
    + intros (r & Hr & Hin). rewrite (Hold r Hr) in Hin.
      by apply elem_of_nil in Hin.
  - by rewrite lookup_delete_ne.
Qed.

Lemma Consistent_same_owners (t t' : gmap string ModuleRecord) d :
  (∀ q id, owns t' q id ↔ owns t q id) →
  (∀ q r, t' !! q = Some r → rec_status r ≠ Loaded → rec_subs r = []) →
  (∀ q r, t' !! q = Some r → NoDup (rec_subs r)) →
  Consistent t d → Consistent t' d.
Proof.
  intros Hown Hloaded Hnodup [Ha _ _ Ho Hi Hn Hg]. split; try done.
  - intros id. rewrite Ha. by setoid_rewrite Hown.
  - intros p1 p2 id H1%Hown H2%Hown. eauto.
Qed.

Lemma Consistent_insert_empty (t : gmap string ModuleRecord) d p r0 :
  rec_subs r0 = [] →
  (∀ r, t !! p = Some r → rec_subs r = []) →
  Consistent t d → Consistent (<[p := r0]> t) d.
Proof.
  intros Hr0 Hold Hinv. apply (Consistent_same_owners t); [| | | done].
  - intros q id. by apply owns_insert_empty.
  - intros q r [[<- <-] | [Hne Hr]]%lookup_insert_Some ?; [done |].
    by eapply inv_loaded.
  - intros q r [[<- <-] | [Hne Hr]]%lookup_insert_Some.
    + rewrite Hr0. constructor.
    + by eapply inv_nodup.
Qed.

Lemma Consistent_delete_empty (t : gmap string ModuleRecord) d p :
  (∀ r, t !! p = Some r → rec_subs r = []) →
  Consistent t d → Consistent (delete p t) d.
Proof.
  intros Hold Hinv. apply (Consistent_same_owners t); [| | | done].
  - intros q id. by apply owns_delete_empty.
  - intros q r [Hne Hr]%lookup_delete_Some ?. by eapply inv_loaded.
  - intros q r [Hne Hr]%lookup_delete_Some. by eapply inv_nodup.
Qed.

(** Releasing what the record at [p] owns, and leaving it empty-handed. *)
Lemma Consistent_release (t : gmap string ModuleRecord) d p r r0 :
  t !! p = Some r → rec_subs r0 = [] →
  Consistent t d →
  Consistent (<[p := r0]> t) (release (rec_subs r) d).
Proof.
  intros Hp Hr0 Hinv.
  assert (Hmine : ∀ id, id ∈ rec_subs r → owns t p id) by (intros; by exists r).
  assert (Hown : ∀ q id, owns (<[p := r0]> t) q id
                         ↔ owns t q id ∧ id ∉ rec_subs r).
  { intros q id. unfold owns. destruct (decide (p = q)) as [<- | Hne].
    - rewrite lookup_insert_eq. split.
      + intros (r' & [= <-] & Hin). rewrite Hr0 in Hin.
        by apply elem_of_nil in Hin.
      + intros [(r' & Hr' & Hin) Hnin]. congruence.
    - rewrite lookup_insert_ne by done. split; [| by intros [? _]].
      intros (r' & Hr' & Hin). split; [eauto |].
      intros Hin'. apply Hne. eapply (inv_owner _ _ Hinv); [by apply Hmine |].
      by exists r'. }
  split.
  - intros id. rewrite release_lookup. setoid_rewrite Hown.
    destruct (decide (id ∈ rec_subs r)) as [Hin | Hnin].
    + split; [by intros [? ?] | by intros (q & _ & ?)].
    + rewrite (inv_active _ _ Hinv). split.
      * intros [q Hq]. eauto.
      * intros (q & Hq & _). eauto.
  - intros q r' [[<- <-] | [Hne Hr]]%lookup_insert_Some ?; [done |].
    by eapply inv_loaded.
  - intros q r' [[<- <-] | [Hne Hr]]%lookup_insert_Some.
    + rewrite Hr0. constructor.
    + by eapply inv_nodup.
  - intros p1 p2 id [H1 _]%Hown [H2 _]%Hown. by eapply inv_owner.
  - intros id. rewrite release_next, release_lookup, release_removals.
    rewrite (inv_issued _ _ Hinv), elem_of_app, elem_of_reverse.
    destruct (decide (id ∈ rec_subs r)) as [Hin | Hnin].
    + split; [tauto |]. intros _. left.
      apply (inv_active _ _ Hinv). exists p. by apply Hmine.
    + split; [tauto |]. intros [? | [? | ?]]; [by left | done | by right].
  - rewrite release_removals. apply NoDup_app. split; [| split].
    + rewrite reverse_Permutation. by eapply inv_nodup.
    + intros id Hin Hrem. rewrite elem_of_reverse in Hin.
      apply (inv_gone _ _ Hinv) in Hrem.
      assert (is_Some (active d !! id)) as [? ?]; [| congruence].
      apply (inv_active _ _ Hinv). exists p. by apply Hmine.
    + by eapply inv_once.
  - intros id. rewrite release_removals, release_lookup, elem_of_app,
      elem_of_reverse.
    destruct (decide (id ∈ rec_subs r)); [done |].
    intros [? | ?]; [done |]. by eapply inv_gone.
Qed.

Lemma owned_is_old (t : gmap string ModuleRecord) d q id :
  Consistent t d → owns t q id → id < next_id d.
Proof.
  intros Hinv Hown. apply (inv_issued _ _ Hinv). left.
  apply (inv_active _ _ Hinv). eauto.
Qed.

(** A successful registration: the new handles go to the record at [p]. *)
Lemma Consistent_register (t : gmap string ModuleRecord) d d' p r0 n :
  Consistent t d →
  (∀ r, t !! p = Some r → rec_subs r = []) →
  next_id d' = next_id d + n →
  removals d' = removals d →
  (∀ id, id ∉ seq (next_id d) n → active d' !! id = active d !! id) →
  (∀ id, id ∈ seq (next_id d) n → is_Some (active d' !! id)) →
  rec_status r0 = Loaded →
  rec_subs r0 = seq (next_id d) n →
  Consistent (<[p := r0]> t) d'.
Proof.
  intros Hinv Hempty Hnext Hrem Hold Hnew Hst Hsubs.
  assert (Hown : ∀ q id, owns (<[p := r0]> t) q id
                         ↔ (q = p ∧ id ∈ seq (next_id d) n) ∨ owns t q id).
  { intros q id. unfold owns. destruct (decide (p = q)) as [<- | Hne].
    - rewrite lookup_insert_eq. split.
      + intros (r & [= <-] & Hin). rewrite Hsubs in Hin. by left.
      + intros [[_ Hin] | (r & Hr & Hin)].
        * exists r0. by rewrite Hsubs.
        * rewrite (Hempty r Hr) in Hin. by apply elem_of_nil in Hin.
    - rewrite lookup_insert_ne by done. split; [by right |].
      by intros [[-> _] | ?]. }
  assert (Hfresh : ∀ q id, owns t q id → id ∉ seq (next_id d) n).
  { intros q id Hq%(owned_is_old _ d); [| done]. rewrite elem_of_seq. lia. }
  split.
  - intros id. setoid_rewrite Hown.
    destruct (decide (id ∈ seq (next_id d) n)) as [Hin | Hnin].
    + split; [| by intros; apply Hnew]. intros _. exists p. by left.
    + rewrite Hold, (inv_active _ _ Hinv) by done. split.
      * intros [q Hq]. exists q. by right.
      * intros (q & [[_ ?] | Hq]); [done | eauto].
  - intros q r [[<- <-] | [Hne Hr]]%lookup_insert_Some ?; [done |].
    by eapply inv_loaded.
  - intros q r [[<- <-] | [Hne Hr]]%lookup_insert_Some.
    + rewrite Hsubs. apply NoDup_seq.
    + by eapply inv_nodup.
  - intros p1 p2 id [[-> H1] | H1]%Hown [[-> H2] | H2]%Hown; [done | | |].
    + by apply Hfresh in H2.
    + by apply Hfresh in H1.
    + by eapply inv_owner.
  - intros id. rewrite Hnext, Hrem.
    destruct (decide (id ∈ seq (next_id d) n)) as [Hin | Hnin].
    + split; [intros _; left; by apply Hnew |].
      intros _. apply elem_of_seq in Hin. lia.
    + rewrite Hold by done. rewrite <- (inv_issued _ _ Hinv).
      rewrite elem_of_seq in Hnin. lia.
  - rewrite Hrem. by eapply inv_once.
  - intros id. rewrite Hrem. intros Hin.
    rewrite Hold; [by eapply inv_gone |].
    assert (id < next_id d) by (apply (inv_issued _ _ Hinv); by right).
    rewrite elem_of_seq. lia.
Qed.

(** A registration that threw and was rolled back: the handles it issued
    are spent, nothing else moved. *)
Lemma Consistent_rollback (t : gmap string ModuleRecord) d d' n :
  Consistent t d →
  next_id d' = next_id d + n →
  removals d' = reverse (seq (next_id d) n) ++ removals d →
  (∀ id, id ∉ seq (next_id d) n → active d' !! id = active d !! id) →
  (∀ id, id ∈ seq (next_id d) n → active d' !! id = None) →
  Consistent t d'.
Proof.
  intros Hinv Hnext Hrem Hold Hnew.
  assert (Hfresh : ∀ id, id ∈ seq (next_id d) n → ¬ id < next_id d).
  { intros id Hin%elem_of_seq. lia. }
  split.
  - intros id. destruct (decide (id ∈ seq (next_id d) n)) as [Hin | Hnin].
    + rewrite Hnew by done. split; [by intros [? ?] |].
      intros [q Hq%(owned_is_old _ d)]; [| done]. by apply Hfresh in Hin.
    + rewrite Hold by done. by apply inv_active.
  - by eapply inv_loaded.
  - by eapply inv_nodup.
  - by eapply inv_owner.
  - intros id. rewrite Hnext, Hrem, elem_of_app, elem_of_reverse.
    destruct (decide (id ∈ seq (next_id d) n)) as [Hin | Hnin].
    + split; [tauto |]. intros _. apply elem_of_seq in Hin. lia.
    + rewrite Hold by done. pose proof (inv_issued _ _ Hinv id) as Hi.
      rewrite elem_of_seq in Hnin. rewrite elem_of_seq. split.
      * intros Hlt. destruct (proj1 Hi) as [? | ?];
          [lia | by left | by right; right].
      * intros [Ha | [Hs | Hr]]; [| lia |];
          (assert (id < next_id d) by (apply Hi; tauto)); lia.
  - rewrite Hrem. apply NoDup_app. split; [| split].
    + rewrite reverse_Permutation. apply NoDup_seq.
    + intros id Hin Hold'. rewrite elem_of_reverse in Hin.
      apply Hfresh in Hin. apply Hin, (inv_issued _ _ Hinv). by right.
    + by eapply inv_once.
  - intros id. rewrite Hrem, elem_of_app, elem_of_reverse.
    intros [Hin | Hin]; [by apply Hnew |].
    rewrite Hold; [by eapply inv_gone |].
    intros Hin'. apply Hfresh in Hin'. apply Hin', (inv_issued _ _ Hinv).
    by right.
Qed.

(** *** Steps of the scheduler *)

Lemma unload_path_consistent p r st :
  tracked st !! p = Some r →
  Consistent (tracked st) (dispatch st) →
  Consistent (tracked (unload_path p r st)) (dispatch (unload_path p r st)).
Proof. intros Hp Hinv. by apply Consistent_release. Qed.

Lemma remove_path_consistent p st :
  Consistent (tracked st) (dispatch st) →
  Consistent (tracked (remove_path p st)) (dispatch (remove_path p st)).
Proof.
  intros Hinv. unfold remove_path.
  destruct (tracked st !! p) as [r |] eqn:Hp; [| done].
  cbn [tracked dispatch]. apply Consistent_delete_empty.
  - cbn [unload_path tracked]. rewrite lookup_insert_eq. by intros ? [= <-].
  - by apply unload_path_consistent.
Qed.

Lemma load_and_register_consistent p c st :
  (∀ r, tracked st !! p = Some r → rec_subs r = []) →
  Consistent (tracked st) (dispatch st) →
  Consistent (tracked (load_and_register p c st))
    (dispatch (load_and_register p c st)).
Proof.
  intros Hempty Hinv. unfold load_and_register.
  destruct (cand_file c) as [why | md reg].
  - cbn [record_failure tracked dispatch]. by apply Consistent_insert_empty.
  - destruct (completes reg) eqn:Hreg.
    + destruct (bridge_register_ok reg (dispatch st) Hreg)
        as (d' & -> & Hnext & Hrem & Hold & Hnew).
      cbn [tracked dispatch].
      by eapply (Consistent_register _ (dispatch st) d' p _ (requested reg)).
    + destruct (bridge_register_throws reg (dispatch st) Hreg)
        as (e & d' & -> & Hnext & Hrem & Hold & Hnew).
      cbn [record_failure tracked dispatch].
      apply Consistent_insert_empty; [done | done |].
      by eapply (Consistent_rollback _ (dispatch st) d' (requested reg)).
Qed.

Lemma reconcile_candidate_consistent p c st :
  Consistent (tracked st) (dispatch st) →
  Consistent (tracked (reconcile_candidate p c st))
    (dispatch (reconcile_candidate p c st)).
Proof.
  intros Hinv. unfold reconcile_candidate.
  destruct (tracked st !! p) as [r |] eqn:Hp.
  - case_bool_decide; [done |].
    apply load_and_register_consistent.
    + cbn [unload_path tracked]. rewrite lookup_insert_eq. by intros ? [= <-].
    + by apply unload_path_consistent.
  - apply load_and_register_consistent; [| done]. rewrite Hp. by intros.
Qed.

Lemma reconcile_consistent snap st :
  Consistent (tracked st) (dispatch st) →
  Consistent (tracked (reconcile snap st)) (dispatch (reconcile snap st)).
Proof.
  intros Hinv. unfold reconcile.
  set (st1 := fold_left _ (removed_paths snap st) st).
  assert (Hst1 : Consistent (tracked st1) (dispatch st1)).
  { subst st1. generalize (removed_paths snap st). intros ps.
    revert st Hinv. induction ps as [|p ps IH]; intros st Hinv; [done |].
    simpl. by apply IH, remove_path_consistent. }
  clearbody st1. clear Hinv. revert st1 Hst1.
  induction (map_to_list snap) as [|[p c] l IH]; intros st1 Hst1; [done |].
  simpl. by apply IH, reconcile_candidate_consistent.
Qed.

Lemma sync_cycle_consistent (inp : CycleInput H) st :
  Consistent (tracked st) (dispatch st) →
  Consistent (tracked (sync_cycle inp st)) (dispatch (sync_cycle inp st)).
Proof.
  intros Hinv. unfold sync_cycle. destruct (reconciles inp st); [| done].
  cbn [tracked dispatch]. by apply reconcile_consistent.
Qed.

Lemma init_consistent :
  Consistent (tracked (init_scheduler (H := H)))
    (dispatch (init_scheduler (H := H))).
Proof.
  split; simpl.
  - intros id. rewrite lookup_empty. split; [by intros [? ?] |].
    intros (p & r & Hr & _). by rewrite lookup_empty in Hr.
  - intros p r Hr. by rewrite lookup_empty in Hr.
  - intros p r Hr. by rewrite lookup_empty in Hr.
  - intros p1 p2 id (r & Hr & _). by rewrite lookup_empty in Hr.
  - intros id. rewrite lookup_empty. split; [lia |].
    intros [[? ?] | Hin]; [done | by apply elem_of_nil in Hin].
  - constructor.
  - intros id Hin. by apply elem_of_nil in Hin.
Qed.

Lemma run_cycles_consistent (inputs : list (CycleInput H)) :
  Consistent (tracked (run_cycles inputs)) (dispatch (run_cycles inputs)).
Proof.
  unfold run_cycles. generalize init_consistent.
  generalize (init_scheduler (H := H)). induction inputs as [|inp inputs IH];
    intros st Hinv; [done |].
  simpl. by apply IH, sync_cycle_consistent.
Qed.

(** *** A step about one path leaves the other paths alone *)

Lemma calls_about_other p q (cs : list LoaderCall) (c : LoaderCall) :
  (c = LoadCall q ∨ c = UnloadCall q) → q ≠ p →
  calls_about p (cs ++ [c]) = calls_about p cs.
Proof.
  intros Hc Hne. unfold calls_about. rewrite List.filter_app.
  destruct Hc as [-> | ->]; simpl; rewrite bool_decide_eq_false_2 by done;
    apply app_nil_r.
Qed.

Lemma failures_about_other p q (fs : list (string * LoadError)) e :
  q ≠ p → failures_about p (fs ++ [(q, e)]) = failures_about p fs.
Proof.
  intros Hne. unfold failures_about. rewrite List.filter_app. simpl.
  rewrite bool_decide_eq_false_2 by done. apply app_nil_r.
Qed.

Lemma unload_path_other p q r st :
  q ≠ p → path_view (unload_path q r st) p = path_view st p.
Proof.
  intros Hne. unfold path_view, unload_path; cbn [tracked calls failures].
  rewrite lookup_insert_ne by done.
  rewrite (calls_about_other p q) by eauto. done.
Qed.

Lemma remove_path_other p q st :
  q ≠ p → path_view (remove_path q st) p = path_view st p.
Proof.
  intros Hne. unfold remove_path.
  destruct (tracked st !! q) as [r |] eqn:Hq; [| done].
  rewrite <- (unload_path_other p q r st Hne).
  unfold path_view; cbn [tracked calls failures].
  by rewrite lookup_delete_ne.
Qed.

Lemma load_and_register_other p q c st :
  q ≠ p → path_view (load_and_register q c st) p = path_view st p.
Proof.
  intros Hne. unfold load_and_register.
  destruct (cand_file c) as [why | md reg].
  - unfold path_view, record_failure; cbn [tracked calls failures].
    rewrite lookup_insert_ne by done.
    rewrite (calls_about_other p q) by eauto.
    by rewrite failures_about_other.
  - destruct (bridge_register reg (dispatch st)) as [[e | subs] d'];
      unfold path_view, record_failure; cbn [tracked calls failures];
      rewrite lookup_insert_ne by done;
      rewrite (calls_about_other p q) by eauto;
      [by rewrite failures_about_other | done].
Qed.

Lemma reconcile_candidate_other p q c st :
  q ≠ p → path_view (reconcile_candidate q c st) p = path_view st p.
Proof.
  intros Hne. unfold reconcile_candidate.
  destruct (tracked st !! q) as [r |].
  - case_bool_decide; [done |].
    by rewrite load_and_register_other, unload_path_other.
  - by apply load_and_register_other.
Qed.

Lemma candidates_fold_other p (l : list (string * Candidate H)) st :
  p ∉ (l.*1) →
  path_view
    (fold_left (fun acc pc => reconcile_candidate (fst pc) (snd pc) acc) l st) p
  = path_view st p.
Proof.
  revert st. induction l as [|[q c] l IH]; intros st Hnin; [done |].
  cbn [fmap list_fmap fst] in Hnin. apply not_elem_of_cons in Hnin as [Hne Hnin].
  cbn [fold_left fst snd]. rewrite IH by done.
  by apply reconcile_candidate_other.
Qed.

Lemma removed_fold_other p (ps : list string) st :
  p ∉ ps →
  path_view (fold_left (fun acc q => remove_path q acc) ps st) p
  = path_view st p.
Proof.
  revert st. induction ps as [|q ps IH]; intros st Hnin; [done |].
  apply not_elem_of_cons in Hnin as [Hne Hnin].
  cbn [fold_left]. rewrite IH by done. by apply remove_path_other.
Qed.

Lemma elem_of_removed_paths snap st p :
  p ∈ removed_paths snap st ↔ snap !! p = None ∧ is_Some (tracked st !! p).
Proof.
  unfold removed_paths. rewrite list_elem_of_In, filter_In, <- list_elem_of_In.
  rewrite bool_decide_eq_true.
  change (map fst (map_to_list (tracked st))) with ((map_to_list (tracked st)).*1).
  rewrite list_elem_of_fmap. split.
  - intros [([q r] & -> & Hin%elem_of_map_to_list) Hsnap]. simpl in *. eauto.
  - intros [Hsnap [r Hr]]. split; [| done].
    exists (p, r). split; [done |]. by apply elem_of_map_to_list.
Qed.

(** The removed phase at one path: a path that is still a candidate keeps
    what it had; a path that is none is no longer tracked. *)
Lemma removed_phase_keeps snap st p :
  is_Some (snap !! p) →
  path_view
    (fold_left (fun acc q => remove_path q acc) (removed_paths snap st) st) p
  = path_view st p.
Proof.
  intros [c Hc]. apply removed_fold_other.
  rewrite elem_of_removed_paths. intros [? _]. congruence.
Qed.

Lemma remove_path_lookup p q st :
  tracked (remove_path q st) !! p
  = if decide (q = p) then None else tracked st !! p.
Proof.
  unfold remove_path. destruct (tracked st !! q) as [r |] eqn:Hq.
  - cbn [unload_path tracked]. destruct (decide (q = p)) as [-> | Hne].
    + apply lookup_delete_eq.
    + by rewrite lookup_delete_ne, lookup_insert_ne.
  - destruct (decide (q = p)) as [-> | Hne]; done.
Qed.

Lemma removed_phase_drops snap st p :
  snap !! p = None →
  tracked
    (fold_left (fun acc q => remove_path q acc) (removed_paths snap st) st) !! p
  = None.
Proof.
  intros Hsnap.
  assert (Hgen : ∀ ps st0,
    tracked (fold_left (fun acc q => remove_path q acc) ps st0) !! p
    = if decide (p ∈ ps) then None else tracked st0 !! p).
  { induction ps as [|q ps IH]; intros st0.
    - by rewrite decide_False by apply not_elem_of_nil.
    - cbn [fold_left]. rewrite IH, remove_path_lookup.
      destruct (decide (p ∈ ps)) as [Hin | Hnin].
      + by rewrite decide_True by (by apply list_elem_of_further).
      + destruct (decide (q = p)) as [-> | Hne].
        * by rewrite decide_True by apply list_elem_of_here.
        * rewrite decide_False; [done |].
          intros [? | ?]%elem_of_cons; done. }
  rewrite Hgen. destruct (decide (p ∈ removed_paths snap st)) as [Hin | Hnin];
    [done |].
  rewrite elem_of_removed_paths in Hnin.
  destruct (tracked st !! p) eqn:Hp; [| done]. destruct Hnin. eauto.
Qed.

(** *** Removed handles stay removed *)

Lemma bridge_register_removals (reg : Prog H unit) d id :
  id ∈ removals d → id ∈ removals (snd (bridge_register reg d)).
Proof.
  intros Hin. destruct (completes reg) eqn:Hreg.
  - destruct (bridge_register_ok reg d Hreg) as (d' & -> & _ & Hrem & _).
    cbn [snd]. by rewrite Hrem.
  - destruct (bridge_register_throws reg d Hreg) as (e & d' & -> & _ & Hrem & _).
    cbn [snd]. rewrite Hrem, elem_of_app. by right.
Qed.

Lemma load_and_register_removals p c st id :
  id ∈ removals (dispatch st) →
  id ∈ removals (dispatch (load_and_register p c st)).
Proof.
  intros Hin. unfold load_and_register.
  destruct (cand_file c) as [why | md reg]; [done |].
  pose proof (bridge_register_removals reg (dispatch st) id Hin) as Hmono.
  by destruct (bridge_register reg (dispatch st)) as [[e | subs] d'].
Qed.

Lemma unload_path_removals p r st id :
  id ∈ removals (dispatch st) ∨ id ∈ rec_subs r →
  id ∈ removals (dispatch (unload_path p r st)).
Proof.
  cbn [unload_path dispatch].
  rewrite release_removals, elem_of_app, elem_of_reverse. tauto.
Qed.

Lemma reconcile_candidate_removals p c st id :
  id ∈ removals (dispatch st) →
  id ∈ removals (dispatch (reconcile_candidate p c st)).
Proof.
  intros Hin. unfold reconcile_candidate. destruct (tracked st !! p) as [r |].
  - case_bool_decide; [done |].
    apply load_and_register_removals, unload_path_removals. by left.
  - by apply load_and_register_removals.
Qed.

Lemma candidates_fold_removals (l : list (string * Candidate H)) st id :
  id ∈ removals (dispatch st) →
  id ∈ removals (dispatch
    (fold_left (fun acc pc => reconcile_candidate (fst pc) (snd pc) acc) l st)).
Proof.
  revert st. induction l as [|[q c] l IH]; intros st Hin; [done |].
  cbn [fold_left fst snd]. by apply IH, reconcile_candidate_removals.
Qed.

Lemma candidates_fold_consistent (l : list (string * Candidate H)) st :
  Consistent (tracked st) (dispatch st) →
  let st' :=
    fold_left (fun acc pc => reconcile_candidate (fst pc) (snd pc) acc) l st in
  Consistent (tracked st') (dispatch st').
Proof.
  revert st. induction l as [|[q c] l IH]; intros st Hinv; [done |].
  cbn [fold_left fst snd]. by apply IH, reconcile_candidate_consistent.
Qed.

Lemma removed_fold_consistent (ps : list string) st :
  Consistent (tracked st) (dispatch st) →
  let st' := fold_left (fun acc q => remove_path q acc) ps st in
  Consistent (tracked st') (dispatch st').
Proof.
  revert st. induction ps as [|q ps IH]; intros st Hinv; [done |].
  cbn [fold_left]. by apply IH, remove_path_consistent.
Qed.

(** *** Reconciliation seen from one candidate *)

Lemma candidate_position snap p c :
  snap !! p = Some c →
  ∃ l1 l2, map_to_list snap = l1 ++ (p, c) :: l2 ∧ (p ∉ l1.*1) ∧ (p ∉ l2.*1).
Proof.
  intros Hin%elem_of_map_to_list.
  destruct (list_elem_of_split _ _ Hin) as (l1 & l2 & Heq).
  exists l1, l2. split; [done |].
  pose proof (NoDup_fst_map_to_list snap) as Hnd.
  rewrite Heq, fmap_app, fmap_cons in Hnd. cbn [fst] in Hnd.
  apply NoDup_app in Hnd as (_ & Hdisj & Hnd2).
  apply NoDup_cons in Hnd2 as [Hnin _]. split; [| done].
  intros Hl1. apply (Hdisj p Hl1). apply list_elem_of_here.
Qed.

(** The reconciliation of a candidate set, cut at the candidate [p]: the
    state [before] its turn shows [p] as the cycle found it; its turn is
    one [reconcile_candidate]; what that leaves about [p] is final, and
    the handles removed so far stay removed. *)
Lemma reconcile_at snap st p c :
  snap !! p = Some c →
  ∃ before,
    path_view before p = path_view st p
    ∧ (Consistent (tracked st) (dispatch st) →
       Consistent (tracked before) (dispatch before))
    ∧ path_view (reconcile snap st) p
      = path_view (reconcile_candidate p c before) p
    ∧ (∀ id, id ∈ removals (dispatch (reconcile_candidate p c before)) →
             id ∈ removals (dispatch (reconcile snap st))).
Proof.
  intros Hp. destruct (candidate_position snap p c Hp) as (l1 & l2 & Hl & H1 & H2).
  unfold reconcile. rewrite Hl, fold_left_app. cbn [fold_left fst snd].
  set (st1 := fold_left (fun acc q => remove_path q acc) (removed_paths snap st) st).
  set (before :=
    fold_left (fun acc pc => reconcile_candidate (fst pc) (snd pc) acc) l1 st1).
  exists before. split; [| split; [| split]].
  - subst before. rewrite candidates_fold_other by done.
    subst st1. apply removed_phase_keeps. eauto.
  - intros Hinv. subst before st1.
    by apply candidates_fold_consistent, removed_fold_consistent.
  - by apply candidates_fold_other.
  - intros id. apply candidates_fold_removals.
Qed.

(** What [load_and_register] leaves at its path. *)
Lemma load_and_register_failure p c st :
  loads c = false →
  ∃ md e,
    path_view (load_and_register p c st) p
    = (Some (mkRecord (cand_fingerprint c) md Failed []),
       calls_about p (calls st) ++ [LoadCall p],
       failures_about p (failures st) ++ [(p, e)]).
Proof.
  unfold loads, load_and_register. intros Hc.
  destruct (cand_file c) as [why | md reg].
  - exists None, (CannotLoad why).
    unfold path_view, record_failure; cbn [tracked calls failures].
    rewrite lookup_insert_eq. unfold calls_about, failures_about.
    rewrite !List.filter_app. simpl. by rewrite !bool_decide_eq_true_2.
  - destruct (bridge_register_throws reg (dispatch st) Hc)
      as (e & d' & -> & _).
    exists md, (RegisterThrew e).
    unfold path_view, record_failure; cbn [tracked calls failures].
    rewrite lookup_insert_eq. unfold calls_about, failures_about.
    rewrite !List.filter_app. simpl. by rewrite !bool_decide_eq_true_2.
Qed.


Lemma unload_path_view p r st :
  path_view (unload_path p r st) p
  = (Some (mkRecord (rec_fingerprint r) (rec_metadata r) Unloaded []),
     calls_about p (calls st) ++ [UnloadCall p],
     failures_about p (failures st)).
Proof.
  unfold path_view, unload_path; cbn [tracked calls failures].
  rewrite lookup_insert_eq. unfold calls_about.
  rewrite !List.filter_app. simpl. by rewrite !bool_decide_eq_true_2.
Qed.

(** *** One cycle seen from one candidate *)

Lemma sync_cycle_reconciles (inp : CycleInput H) st :
  reconciles inp st = true →
  (∀ p, path_view (sync_cycle inp st) p
        = path_view (reconcile (candidates inp) (begin_cycle st)) p)
  ∧ dispatch (sync_cycle inp st)
    = dispatch (reconcile (candidates inp) (begin_cycle st)).
Proof. intros Hrec. unfold sync_cycle. by rewrite Hrec. Qed.

Lemma begin_cycle_view st p : path_view (begin_cycle st) p = (tracked st !! p, [], []).
Proof. done. Qed.

Lemma path_view_eq st p (r : option ModuleRecord) (cs : list LoaderCall)
    (fs : list (string * LoadError)) :
  path_view st p = (r, cs, fs) →
  tracked st !! p = r ∧ calls_about p (calls st) = cs
  ∧ failures_about p (failures st) = fs.
Proof. unfold path_view. by intros [= -> -> ->]. Qed.

Lemma reconcile_candidate_turn p c st :
  (∀ r, tracked st !! p = Some r → rec_fingerprint r ≠ cand_fingerprint c) →
  reconcile_candidate p c st
  = load_and_register p c (turn_start p (tracked st !! p) st).
Proof.
  intros Hnew. unfold reconcile_candidate.
  destruct (tracked st !! p) as [r |] eqn:Hp; [| done].
  rewrite bool_decide_eq_false_2; [done |]. by apply Hnew.
Qed.

Lemma turn_start_calls p st :
  calls_about p (calls st) = [] →
  calls_about p (calls (turn_start p (tracked st !! p) st)) ++ [LoadCall p]
  = turn_calls p (tracked st !! p).
Proof.
  intros Hcalls. destruct (tracked st !! p) as [r |]; cbn [turn_start turn_calls].
  - destruct (path_view_eq _ _ _ _ _ (unload_path_view p r st)) as (_ & -> & _).
    by rewrite Hcalls.
  - by rewrite Hcalls.
Qed.

Lemma turn_start_failures p st :
  failures_about p (failures (turn_start p (tracked st !! p) st))
  = failures_about p (failures st).
Proof. by destruct (tracked st !! p). Qed.

Lemma turn_start_removals p st r id :
  tracked st !! p = Some r → id ∈ rec_subs r →
  id ∈ removals (dispatch (turn_start p (tracked st !! p) st)).
Proof.
  intros -> Hin. cbn [turn_start]. apply unload_path_removals. by right.
Qed.

(** A candidate that has to be loaded and fails. *)
Lemma failing_candidate (inp : CycleInput H) st p c :
  Consistent (tracked st) (dispatch st) →
  reconciles inp st = true →
  candidates inp !! p = Some c →
  loads c = false →
  (∀ r, tracked st !! p = Some r → rec_fingerprint r ≠ cand_fingerprint c) →
  let st' := sync_cycle inp st in
  (∃ md e, path_view st' p
           = (Some (mkRecord (cand_fingerprint c) md Failed []),
              turn_calls p (tracked st !! p), [(p, e)]))
  ∧ ∀ r id, tracked st !! p = Some r → id ∈ rec_subs r →
            active (dispatch st') !! id = None.
Proof.
  intros Hinv Hrec Hp Hc Hnew st'.
  pose proof (sync_cycle_consistent inp st Hinv) as Hinv'. fold st' in Hinv'.
  destruct (sync_cycle_reconciles inp st Hrec) as [Hview Hdisp].
  fold st' in Hview, Hdisp.
  destruct (reconcile_at (candidates inp) (begin_cycle st) p c Hp)
    as (before & Hbefore & _ & Hfinal & Hmono).
  rewrite begin_cycle_view in Hbefore.
  apply path_view_eq in Hbefore as (Htr & Hcalls & Hfails).
  rewrite reconcile_candidate_turn in Hfinal, Hmono by (by rewrite Htr).
  destruct (load_and_register_failure p c
              (turn_start p (tracked before !! p) before) Hc)
    as (md & e & Hout).
  rewrite turn_start_calls, turn_start_failures, Hfails in Hout by done.
  rewrite Htr in Hout, Hfinal.
  split.
  - exists md, e. by rewrite Hview, Hfinal, Hout.
  - intros r id Hr Hin. apply (inv_gone _ _ Hinv'). rewrite Hdisp.
    apply Hmono, load_and_register_removals.
    apply (turn_start_removals p before r); [by rewrite Htr | done].
Qed.


(** *** A cycle with nothing to do *)

Lemma load_and_register_fingerprint p c st :
  rec_fingerprint <$> (tracked (load_and_register p c st) !! p)
  = Some (cand_fingerprint c).
Proof.
  unfold load_and_register. destruct (cand_file c) as [why | md reg].
  - cbn [record_failure tracked]. by rewrite lookup_insert_eq.
  - destruct (bridge_register reg (dispatch st)) as [[e | subs] d'];
      cbn [record_failure tracked]; by rewrite lookup_insert_eq.
Qed.

Lemma reconcile_candidate_fingerprint p c st :
  rec_fingerprint <$> (tracked (reconcile_candidate p c st) !! p)
  = Some (cand_fingerprint c).
Proof.
  unfold reconcile_candidate. destruct (tracked st !! p) as [r |] eqn:Hp.
  - case_bool_decide as Hfp; [| apply load_and_register_fingerprint].
    rewrite Hp. simpl. by rewrite Hfp.
  - apply load_and_register_fingerprint.
Qed.

Lemma reconcile_in_sync snap st : in_sync (reconcile snap st) snap.
Proof.
  intros p. destruct (snap !! p) as [c |] eqn:Hp.
  - destruct (reconcile_at snap st p c Hp) as (before & _ & _ & Hfinal & _).
    apply (f_equal (fun v => fst (fst v))) in Hfinal. cbn [path_view fst] in Hfinal.
    rewrite Hfinal. apply reconcile_candidate_fingerprint.
  - unfold reconcile.
    set (st1 := fold_left _ (removed_paths snap st) st).
    assert (Hnin : p ∉ (map_to_list snap).*1).
    { intros ([q c] & -> & Hin%elem_of_map_to_list)%list_elem_of_fmap.
      simpl in *. congruence. }
    pose proof (candidates_fold_other p (map_to_list snap) st1 Hnin) as Hv.
    apply (f_equal (fun v => fst (fst v))) in Hv. cbn [path_view fst] in Hv.
    rewrite Hv. subst st1. by rewrite removed_phase_drops.
Qed.

Lemma reconcile_quiet snap st : in_sync st snap → reconcile snap st = st.
Proof.
  intros Hsync. unfold reconcile.
  assert (removed_paths snap st = []) as ->.
  { apply elem_of_nil_inv. intros p [Hsnap [r Hr]]%elem_of_removed_paths.
    specialize (Hsync p). rewrite Hsnap, Hr in Hsync. done. }
  cbn [fold_left].
  assert (Hid : ∀ p c, (p, c) ∈ map_to_list snap →
                       reconcile_candidate p c st = st).
  { intros p c Hin%elem_of_map_to_list. unfold reconcile_candidate.
    specialize (Hsync p). rewrite Hin in Hsync.
    destruct (tracked st !! p) as [r |]; [| done].
    injection Hsync as Hfp. by rewrite bool_decide_eq_true_2. }
  induction (map_to_list snap) as [|[p c] l IH]; [done |].
  cbn [fold_left fst snd]. rewrite Hid by apply list_elem_of_here.
  apply IH. intros q cq Hin. apply Hid. by apply list_elem_of_further.
Qed.

Lemma sync_cycle_in_sync (inp : CycleInput H) st :
  reconciles inp st = true ∨ in_sync st (candidates inp) →
  in_sync (sync_cycle inp st) (candidates inp).
Proof.
  intros Hcase. unfold sync_cycle.
  destruct (reconciles inp st) eqn:Hrec.
  - intros p. cbn [tracked]. apply reconcile_in_sync.
  - destruct Hcase as [? | Hsync]; [done |]. exact Hsync.
Qed.

Lemma sync_cycle_quiet (inp : CycleInput H) st :
  in_sync st (candidates inp) →
  calls (sync_cycle inp st) = []
  ∧ failures (sync_cycle inp st) = []
  ∧ tracked (sync_cycle inp st) = tracked st
  ∧ dispatch (sync_cycle inp st) = dispatch st.
Proof.
  intros Hsync. unfold sync_cycle. destruct (reconciles inp st); [| done].
  rewrite reconcile_quiet by done. done.
Qed.

(** Along a run with a truthful mirror the records carry the fingerprints
    of the last cycle that synced, whether or not that cycle reconciled. *)
Lemma truthful_run_in_sync (inputs : list (CycleInput H)) st
    (last : option (gmap string (Candidate H))) :
  (∀ prev, last = Some prev → in_sync st prev) →
  (first_done st = true → is_Some last) →
  truthful last inputs →
  ∀ snap, last_synced last inputs = Some snap →
          in_sync (fold_left (fun acc inp => sync_cycle inp acc) inputs st) snap.
Proof.
  revert st last. induction inputs as [|inp inputs IH];
    intros st last Hsync Hfirst Htruth snap Hlast.
  - by apply Hsync.
  - cbn [fold_left truthful last_synced] in *. fold (last_synced (H := H)) in Hlast.
    destruct (mirror inp) as [| changed] eqn:Hmirror.
    + apply (IH _ last); [| | done | done].
      * intros prev Hprev. unfold sync_cycle, reconciles. rewrite Hmirror.
        by apply Hsync.
      * unfold sync_cycle, reconciles. rewrite Hmirror. exact Hfirst.
    + destruct Htruth as [Hsame Htruth].
      apply (IH _ (Some (candidates inp))); [| by eauto | done | done].
      intros prev [= <-]. apply sync_cycle_in_sync.
      unfold reconciles. rewrite Hmirror.
      destruct changed; [by left |]. cbn [orb].
      destruct (first_done st) eqn:Hdone; [| by left]. right.
      destruct (Hfirst eq_refl) as [prev Hprev].
      intros p. rewrite <- (Hsame eq_refl prev Hprev p). by apply Hsync.
Qed.

(** *** Handles are issued in order *)

Lemma bridge_register_next (reg : Prog H unit) d :
  next_id d ≤ next_id (snd (bridge_register reg d)).
Proof.
  destruct (completes reg) eqn:Hreg.
  - destruct (bridge_register_ok reg d Hreg) as (d' & -> & Hnext & _).
    cbn [snd]. lia.
  - destruct (bridge_register_throws reg d Hreg) as (e & d' & -> & Hnext & _).
    cbn [snd]. lia.
Qed.

Lemma load_and_register_next p c st :
  next_id (dispatch st) ≤ next_id (dispatch (load_and_register p c st)).
Proof.
  unfold load_and_register. destruct (cand_file c) as [why | md reg]; [done |].
  pose proof (bridge_register_next reg (dispatch st)) as Hle.
  by destruct (bridge_register reg (dispatch st)) as [[e | subs] d'].
Qed.

Lemma turn_start_next p (old : option ModuleRecord) st :
  next_id (dispatch (turn_start p old st)) = next_id (dispatch st).
Proof. destruct old as [r |]; [apply release_next | done]. Qed.

Lemma reconcile_candidate_next p c st :
  next_id (dispatch st) ≤ next_id (dispatch (reconcile_candidate p c st)).
Proof.
  unfold reconcile_candidate. destruct (tracked st !! p) as [r |].
  - case_bool_decide; [done |].
    etrans; [| apply load_and_register_next].
    cbn [unload_path dispatch]. by rewrite release_next.
  - apply load_and_register_next.
Qed.

Lemma candidates_fold_next (l : list (string * Candidate H)) st :
  next_id (dispatch st)
  ≤ next_id (dispatch
      (fold_left (fun acc pc => reconcile_candidate (fst pc) (snd pc) acc) l st)).
Proof.
  revert st. induction l as [|[q c] l IH]; intros st; [done |].
  cbn [fold_left fst snd]. etrans; [apply (reconcile_candidate_next q c) |].
  apply IH.
Qed.

Lemma remove_path_next p st :
  next_id (dispatch (remove_path p st)) = next_id (dispatch st).
Proof.
  unfold remove_path. destruct (tracked st !! p) as [r |]; [| done].
  cbn [unload_path dispatch]. apply release_next.
Qed.

Lemma removed_fold_next (ps : list string) st :
  next_id (dispatch (fold_left (fun acc q => remove_path q acc) ps st))
  = next_id (dispatch st).
Proof.
  revert st. induction ps as [|q ps IH]; intros st; [done |].
  cbn [fold_left]. by rewrite IH, remove_path_next.
Qed.

(** *** The removed phase releases what the removed files held *)





(** *** The turn of a candidate, with the dispatch layer it met *)

Lemma reconcile_cut snap st p c :
  snap !! p = Some c →
  ∃ before,
    path_view before p = path_view st p
    ∧ next_id (dispatch st) ≤ next_id (dispatch before)
    ∧ path_view (reconcile snap st) p
      = path_view (reconcile_candidate p c before) p
    ∧ (∀ id, id ∈ removals (dispatch (reconcile_candidate p c before)) →
             id ∈ removals (dispatch (reconcile snap st)))
    ∧ next_id (dispatch (reconcile_candidate p c before))
      ≤ next_id (dispatch (reconcile snap st)).
Proof.
  intros Hp. destruct (candidate_position snap p c Hp) as (l1 & l2 & Hl & H1 & H2).
  unfold reconcile. rewrite Hl, fold_left_app. cbn [fold_left fst snd].
  set (st1 := fold_left (fun acc q => remove_path q acc) (removed_paths snap st) st).
  set (before :=
    fold_left (fun acc pc => reconcile_candidate (fst pc) (snd pc) acc) l1 st1).
  exists before. split; [| split; [| split; [| split]]].
  - subst before. rewrite candidates_fold_other by done.
    subst st1. apply removed_phase_keeps. eauto.
  - subst before. etrans; [| apply candidates_fold_next].
    subst st1. by rewrite removed_fold_next.
  - by apply candidates_fold_other.
  - intros id. apply candidates_fold_removals.
  - apply candidates_fold_next.
Qed.

(** A candidate that has to be loaded and whose [register] throws. *)
Lemma throwing_candidate (inp : CycleInput H) st p c md (reg : Prog H unit) :
  Consistent (tracked st) (dispatch st) →
  reconciles inp st = true →
  candidates inp !! p = Some c →
  cand_file c = Exports md reg →
  completes reg = false →
  (∀ r, tracked st !! p = Some r → rec_fingerprint r ≠ cand_fingerprint c) →
  let st' := sync_cycle inp st in
  ∃ e d,
    run_result (run bridge_handle reg (d, [])) = Err e
    ∧ fst (bridge_register reg d) = inl (RegisterThrew e)
    ∧ path_view st' p
      = (Some (mkRecord (cand_fingerprint c) md Failed []),
         turn_calls p (tracked st !! p), [(p, RegisterThrew e)])
    ∧ ∀ id, id ∈ snd (run_world (run bridge_handle reg (d, []))) →
        is_Some (active (fst (run_world (run bridge_handle reg (d, [])))) !! id)
        ∧ next_id (dispatch st) ≤ id < next_id (dispatch st')
        ∧ active (dispatch st') !! id = None
        ∧ id ∈ removals (dispatch st').
Proof.
  intros Hinv Hrec Hp Hfile Hreg Hnew st'.
  pose proof (sync_cycle_consistent inp st Hinv) as Hinv'. fold st' in Hinv'.
  destruct (sync_cycle_reconciles inp st Hrec) as [Hview Hdisp].
  fold st' in Hview, Hdisp.
  destruct (reconcile_cut (candidates inp) (begin_cycle st) p c Hp)
    as (before & Hbefore & Hle & Hfinal & Hmono & Hle').
  rewrite begin_cycle_view in Hbefore.
  apply path_view_eq in Hbefore as (Htr & Hcalls & Hfails).
  rewrite reconcile_candidate_turn in Hfinal, Hmono, Hle' by (by rewrite Htr).
  set (turn := turn_start p (tracked before !! p) before) in *.
  set (attempt := run bridge_handle reg (dispatch turn, [])).
  destruct (run_bridge_spec reg (dispatch turn) [])
    as (Hmade & _ & _ & _ & Hwas & Hres).
  fold attempt in Hmade, Hwas, Hres. rewrite Hreg in Hres. simpl in Hmade.
  destruct Hres as [e Hres].
  assert (Hbr : bridge_register reg (dispatch turn)
                = (inl (RegisterThrew e),
                   release (snd (run_world attempt)) (fst (run_world attempt)))).
  { unfold bridge_register. fold attempt. by rewrite Hres. }
  destruct (bridge_register_throws reg (dispatch turn) Hreg)
    as (e' & d' & Hbr' & Hnext & Hrem & _ & Hnone).
  assert (Hd' : release (snd (run_world attempt)) (fst (run_world attempt)) = d')
    by congruence.
  rewrite Hd' in Hbr.
  assert (Hload : load_and_register p c turn
                  = record_failure p (cand_fingerprint c) md (RegisterThrew e)
                      d' turn).
  { unfold load_and_register. by rewrite Hfile, Hbr. }
  exists e, (dispatch turn). fold attempt.
  split; [done |]. split; [by rewrite Hbr |]. split.
  - rewrite Hview, Hfinal, Hload.
    unfold path_view, record_failure; cbn [tracked calls failures].
    rewrite lookup_insert_eq. unfold calls_about, failures_about.
    rewrite !List.filter_app. cbn [List.filter fst].
    rewrite !bool_decide_eq_true_2 by done.
    fold (calls_about p (calls turn)). fold (failures_about p (failures turn)).
    subst turn. rewrite turn_start_calls, turn_start_failures, Hfails, Htr by done.
    done.
  - intros id Hid. rewrite Hmade in Hid.
    assert (Hin : id ∈ removals (dispatch st')).
    { rewrite Hdisp. apply Hmono. rewrite Hload. cbn [record_failure dispatch].
      rewrite Hrem, elem_of_app, elem_of_reverse. by left. }
    split; [by apply Hwas |]. split; [| split; [by apply (inv_gone _ _ Hinv') | done]].
    pose proof Hid as Hrange. apply elem_of_seq in Hrange.
    rewrite Hload in Hle'. cbn [record_failure dispatch] in Hle'.
    subst turn. rewrite turn_start_next in Hrange, Hnext.
    cbn [begin_cycle dispatch] in Hle. rewrite Hdisp. lia.
Qed.


(** *** Where the handles of a Loaded record come from *)





(** *** The claims about the loader *)


(** C2: when the [register] entry point of a module throws in a cycle
    (the file being new or changed, so that the cycle loads it), the
    outcome is a LoadError for that path, reported with the thrown error;
    every subscription the module made during the call was active when it
    was made, was issued in this cycle, and is removed and inactive when
    the cycle ends; the path is left Failed and owns nothing, the handles
    of a previous version are inactive too, and every subscription that is
    active after the cycle belongs to another file. *)
Theorem throwing_register_is_rolled_back (inputs : list (CycleInput H))
    (inp : CycleInput H) p c md (reg : Prog H unit) :
  let st := run_cycles inputs in
  let st' := sync_cycle inp st in
  reconciles inp st = true →
  candidates inp !! p = Some c →
  cand_file c = Exports md reg →
  completes reg = false →
  (∀ r, tracked st !! p = Some r → rec_fingerprint r ≠ cand_fingerprint c) →
  ∃ e d,
    run_result (run bridge_handle reg (d, [])) = Err e
    ∧ fst (bridge_register reg d) = inl (RegisterThrew e)
    ∧ failures_about p (failures st') = [(p, RegisterThrew e)]
    ∧ status_at st' p = Some Failed
    ∧ subs_at st' p = []
    ∧ (∀ id, id ∈ snd (run_world (run bridge_handle reg (d, []))) →
          is_Some
            (active (fst (run_world (run bridge_handle reg (d, [])))) !! id)
          ∧ next_id (dispatch st) ≤ id < next_id (dispatch st')
          ∧ active (dispatch st') !! id = None
          ∧ id ∈ removals (dispatch st'))
    ∧ (∀ r id, tracked st !! p = Some r → id ∈ rec_subs r →
          active (dispatch st') !! id = None)
    ∧ (∀ id, is_Some (active (dispatch st') !! id) →
          ∃ q, q ≠ p ∧ owns (tracked st') q id).
Proof.
  intros st st' Hrec Hp Hfile Hreg Hnew.
  pose proof (run_cycles_consistent inputs) as Hinv. fold st in Hinv.
  pose proof (sync_cycle_consistent inp st Hinv) as Hinv'. fold st' in Hinv'.
  destruct (throwing_candidate inp st p c md reg Hinv Hrec Hp Hfile Hreg Hnew)
    as (e & d & Hres & Hbr & Hview & Hmade).
  fold st' in Hview, Hmade.
  apply path_view_eq in Hview as (Htr & _ & Hfails).
  assert (Hloads : loads c = false) by (unfold loads; by rewrite Hfile).
  destruct (failing_candidate inp st p c Hinv Hrec Hp Hloads Hnew) as [_ Hgone].
  fold st' in Hgone.
  exists e, d. unfold status_at, subs_at. rewrite Htr.
  do 6 (split; [done |]). split; [exact Hgone |].
  intros id [q Hq]%(inv_active _ _ Hinv'). exists q. split; [| done].
  intros ->. destruct Hq as (r & Hr & Hin). rewrite Htr in Hr.
  injection Hr as <-. by apply elem_of_nil in Hin.
Qed.

(** C5: of two consecutive cycles between which no fingerprint changed,
    the second makes no load call and no unload call, and leaves the
    records and the dispatch layer as they were.  The first cycle either
    ran its reconciliation or found the scheduler in step with the
    repository already (the case in which the mirror reports no change and
    reconciliation is skipped; [truthful_run_in_sync] shows that a truthful
    mirror keeps it so). *)
Theorem unchanged_repository_cycle_is_quiet (st : Scheduler H)
    (in1 in2 : CycleInput H) :
  reconciles in1 st = true ∨ in_sync st (candidates in1) →
  same_fingerprints (candidates in1) (candidates in2) →
  let st1 := sync_cycle in1 st in
  let st2 := sync_cycle in2 st1 in
  calls st2 = []
  ∧ failures st2 = []
  ∧ tracked st2 = tracked st1
  ∧ dispatch st2 = dispatch st1.
Proof.
  intros Hfirst Hsame st1 st2. apply sync_cycle_quiet.
  intros p. rewrite <- (Hsame p). by apply sync_cycle_in_sync.
Qed.

End LoaderFacts.

(** * The loader on [hello.js] *)

Section Scenarios.
Import Js Regex Bot Hello Loader Scenario.

(** The first cycle of the documentation's scenario: one record, Loaded,
    one subscription. *)
Lemma first_cycle_loads_hello :
  tracked (run_cycles [first_cycle]) = {[ "hello.js"%string := hello_record ]}
  ∧ active (dispatch (run_cycles [first_cycle]))
    = {[ 0 := TextSub hello_pattern HelloHandler ]}
  ∧ calls (run_cycles [first_cycle]) = [LoadCall "hello.js"].
Proof. repeat split; vm_compute; reflexivity. Qed.

(** A second file that throws at top level: it is Failed, [hello.js] is
    untouched and its subscription stays; once both files are gone from
    the repository, nothing is tracked and nothing is active. *)
Lemma broken_file_beside_hello :
  let st := run_cycles [first_cycle; mixed_cycle] in
  let st' := sync_cycle (mkCycle (Updated true) ∅) st in
  status_at st "broken.js" = Some Failed
  ∧ tracked st !! "hello.js"%string = Some hello_record
  ∧ active (dispatch st) = {[ 0 := TextSub hello_pattern HelloHandler ]}
  ∧ calls st = [LoadCall "broken.js"]
  ∧ tracked st' = ∅
  ∧ active (dispatch st') = ∅
  ∧ removals (dispatch st') = [0].
Proof. repeat split; vm_compute; reflexivity. Qed.


(** [hello.js] is edited into a version whose [register] subscribes and
    then throws: the cycle leaves the path Failed and no subscription
    active, the old handle 0 and the new handle 1 both removed. *)
Lemma throwing_register_witness :
  let st' := sync_cycle throwing_cycle (run_cycles [first_cycle]) in
  status_at st' "hello.js" = Some Failed
  ∧ subs_at st' "hello.js" = []
  ∧ active (dispatch st') !! 0 = None
  ∧ ∀ id, is_Some (active (dispatch st') !! id) →
          ∃ q, q ≠ "hello.js"%string ∧ owns (tracked st') q id.
Proof.
  intros st'.
  destruct (throwing_register_is_rolled_back [first_cycle] throwing_cycle
              "hello.js" hello_throwing None
              (Hello.register ≫= fun _ => Throw (Raised JNull)))
    as (e & d & _ & _ & _ & Hstatus & Hsubs & _ & Hgone & Hothers).
  - reflexivity.
  - reflexivity.
  - reflexivity.
  - reflexivity.
  - intros r Hr. vm_compute in Hr. injection Hr as <-. vm_compute. discriminate.
  - split; [exact Hstatus |]. split; [exact Hsubs |]. split; [| exact Hothers].
    apply (Hgone hello_record 0); [reflexivity |]. apply list_elem_of_here.
Defined.

(** The first cycle run twice over the same repository: the second pass
    calls neither load nor unload. *)
Lemma unchanged_repository_witness :
  calls (sync_cycle first_cycle (sync_cycle first_cycle init_scheduler)) = []
  ∧ calls (sync_cycle quiet_cycle (sync_cycle first_cycle init_scheduler)) = [].
Proof.
  split.
  - refine (proj1 (unchanged_repository_cycle_is_quiet init_scheduler
                     first_cycle first_cycle _ _)).
    + left. reflexivity.
    + intros p. reflexivity.
  - refine (proj1 (unchanged_repository_cycle_is_quiet init_scheduler
                     first_cycle quiet_cycle _ _)).
    + left. reflexivity.
    + intros p. reflexivity.
Defined.

End Scenarios.

(** * More on hello.js *)

Section HelloJsMore.
Import Js Regex Bot Hello HelloCases.

(** The texts the pattern matches, as occurrences of the command. *)
Lemma hello_pattern_occurrence (s : JsString) :
  regex_test hello_pattern s = true
  ↔ ∃ pre post, s = pre ++ lit "/hello" ++ post
                ∧ (post = [] ∨ ∃ c rest, post = c :: rest ∧ is_space c = true).
Proof.
  rewrite regex_test_somewhere. unfold hello_pattern. split.
  - intros (pre & suf & -> & Hm).
    apply match_literal_then in Hm as (post & -> & Hm).
    apply match_space_or_end in Hm. by exists pre, post.
  - intros (pre & post & -> & Hpost).
    exists pre, (lit "/hello" ++ post). split; [done |].
    apply match_literal_then. exists post. split; [done |].
    by apply match_space_or_end.
Qed.

Lemma no_slash_in_hello : 47%N ∉ lit "hello".
Proof.
  intros Hin. simpl in Hin.
  repeat (apply elem_of_cons in Hin as [Hin | Hin]; [discriminate |]).
  by apply elem_of_nil in Hin.
Qed.

(** X1: whatever the message and the handle, the handler either throws
    before touching the handle (no call, world unchanged), or makes exactly
    one call, a send-message to the [chat.id] of the message; it never
    subscribes and never sends twice. *)
Theorem handler_one_send_at_most (W : Type) (bot : Handle W Closure) (w : W)
    (msg : Data) :
  let r := run bot (hello_handler msg) w in
  (run_calls r = [] ∧ run_world r = w ∧ ∃ e, run_result r = Err e)
  ∨ (∃ chat chat_id text,
        get_prop msg (lit "chat") = Ok chat
        ∧ get_prop chat (lit "id") = Ok chat_id
        ∧ run_calls r = [SendMessage chat_id text]
        ∧ run_world r = snd (bot (SendMessage chat_id text) w)).
Proof.
  unfold hello_handler.
  destruct (get_prop msg (lit "chat")) as [chat | e] eqn:Hchat;
    cbn -[lit get_prop to_string greeting]; [| left; eauto].
  destruct (get_prop chat (lit "id")) as [chat_id | e] eqn:Hid;
    cbn -[lit get_prop to_string greeting]; [| left; eauto].
  destruct (get_prop msg (lit "from")) as [from | e];
    cbn -[lit get_prop to_string greeting]; [| left; eauto].
  destruct (get_prop from (lit "first_name")) as [first_name | e];
    cbn -[lit get_prop to_string greeting]; [| left; eauto].
  destruct (to_string first_name) as [text | e];
    cbn -[lit get_prop to_string greeting]; [| left; eauto].
  right. exists chat, chat_id, (greeting text).
  split; [done |]. split; [done |].
  by destruct (bot (SendMessage chat_id (greeting text)) w) as [[v | e] w'].
Qed.

(** X2: the handler catches nothing: for a message it can read, its
    outcome is the outcome of the send, the error of a failed send
    included, and the world is the one the send left. *)
Theorem handler_outcome_is_send_outcome (W : Type) (bot : Handle W Closure)
    (w : W) (msg chat chat_id from first_name : Data) (text : JsString) :
  get_prop msg (lit "chat") = Ok chat →
  get_prop chat (lit "id") = Ok chat_id →
  get_prop msg (lit "from") = Ok from →
  get_prop from (lit "first_name") = Ok first_name →
  to_string first_name = Ok text →
  let sent := bot (SendMessage chat_id (greeting text)) w in
  run_result (run bot (hello_handler msg) w)
  = match fst sent with
    | Ok _ => Ok ()
    | Err e => Err e
    end
  ∧ run_world (run bot (hello_handler msg) w) = snd sent.
Proof.
  intros ????? sent. erewrite handler_reads_then_sends by eassumption.
  subst sent. simpl.
  by destruct (bot (SendMessage chat_id (greeting text)) w) as [[v | e] w'].
Qed.

Lemma handler_outcome_witness :
  run_result (run failing_bot (hello_handler Scenario.message_from_bob) ())
  = Err (Raised transport_down)
  ∧ run_result (run Scenario.silent_bot
                  (hello_handler Scenario.message_from_bob) ())
    = Ok ().
Proof.
  split.
  - apply (handler_outcome_is_send_outcome unit failing_bot ()
             Scenario.message_from_bob
             (JObj [ (lit "id", JNum 42); (lit "type", JStr (lit "private")) ])
             (JNum 42)
             (JObj [ (lit "id", JNum 7); (lit "first_name", JStr (lit "Bob")) ])
             (JStr (lit "Bob")) (lit "Bob")); reflexivity.
  - apply (handler_outcome_is_send_outcome unit Scenario.silent_bot ()
             Scenario.message_from_bob
             (JObj [ (lit "id", JNum 42); (lit "type", JStr (lit "private")) ])
             (JNum 42)
             (JObj [ (lit "id", JNum 7); (lit "first_name", JStr (lit "Bob")) ])
             (JStr (lit "Bob")) (lit "Bob")); reflexivity.
Defined.

(** X3: the handler validates nothing below [chat] and [from]: when
    [chat] has no [id] and [from] has no [first_name] it still sends, to
    the chat id [undefined], greeting the name "undefined". *)
Theorem missing_inner_fields_are_sent_as_undefined (W : Type)
    (bot : Handle W Closure) (w : W) (msg chat from : Data) :
  get_prop msg (lit "chat") = Ok chat →
  get_prop chat (lit "id") = Ok JUndefined →
  get_prop msg (lit "from") = Ok from →
  get_prop from (lit "first_name") = Ok JUndefined →
  run_calls (run bot (hello_handler msg) w)
  = [SendMessage JUndefined (greeting (lit "undefined"))].
Proof.
  intros Hchat Hid Hfrom Hname.
  rewrite (handler_reads_then_sends msg chat JUndefined from JUndefined
             (lit "undefined")) by done.
  apply run_single_call.
Qed.

Lemma missing_inner_fields_witness :
  run_calls (run Scenario.silent_bot (hello_handler bare_message) ())
  = [SendMessage JUndefined (greeting (lit "undefined"))].
Proof.
  apply (missing_inner_fields_are_sent_as_undefined unit Scenario.silent_bot ()
           bare_message (JObj []) (JObj [])); reflexivity.
Defined.

(** X4: [chat] is read before [from]: when [msg.chat] is [undefined] or
    [null] the handler throws the TypeError of reading [id], whatever
    [from] is, and does not touch the handle. *)
Theorem missing_chat_throws_on_id (W : Type) (bot : Handle W Closure) (w : W)
    (msg chat : Data) (n : Nullish) :
  get_prop msg (lit "chat") = Ok chat →
  nullish chat = Some n →
  run bot (hello_handler msg) w
  = mkRun (Err (CannotReadProperty (lit "id") n)) w [].
Proof.
  intros Hchat Hn. unfold hello_handler.
  rewrite Hchat; cbn -[lit get_prop to_string greeting].
  destruct chat; try discriminate; injection Hn as <-; reflexivity.
Qed.

Lemma missing_chat_witness :
  run Scenario.silent_bot (hello_handler empty_message) ()
  = mkRun (Err (CannotReadProperty (lit "id") OfUndefined)) () [].
Proof.
  apply (missing_chat_throws_on_id unit Scenario.silent_bot () empty_message
           JUndefined OfUndefined); reflexivity.
Defined.

(** X5: the command is not recognised when something other than
    whitespace is glued to it: a text that starts with "/hello", goes on
    with a code unit that is not whitespace, and has no further slash does
    not match.  This covers the "/hello@botname" form and "/helloworld". *)
Theorem glued_command_does_not_match (c : N) (rest : JsString) :
  is_space c = false →
  47%N ∉ c :: rest →
  regex_test hello_pattern (lit "/hello" ++ c :: rest) = false.
Proof.
  intros Hc Hslash. apply not_true_is_false. intros Hm.
  apply hello_pattern_occurrence in Hm as (pre & post & Heq & Hpost).
  destruct pre as [|x pre].
  - rewrite app_nil_l in Heq. apply app_inv_head in Heq. subst post.
    destruct Hpost as [? | (c' & rest' & [= <- <-] & Hsp)]; [done | congruence].
  - assert (Htail : lit "hello" ++ c :: rest = pre ++ lit "/hello" ++ post)
      by (by injection Heq).
    assert (Hin : 47%N ∈ lit "hello" ++ c :: rest).
    { rewrite Htail, !elem_of_app. right. left.
      apply (list_elem_of_here 47%N (lit "hello")). }
    apply elem_of_app in Hin as [Hin | Hin]; [by apply no_slash_in_hello |].
    done.
Qed.

Lemma glued_command_witness :
  regex_test hello_pattern (lit "/hello@botname with arguments") = false.
Proof.
  apply (glued_command_does_not_match 64%N (lit "botname with arguments")).
  - reflexivity.
  - vm_compute. intros Hin.
    repeat (apply elem_of_cons in Hin as [Hin | Hin]; [discriminate |]).
    by apply elem_of_nil in Hin.
Defined.

(** X6: the text around the command does not matter: a text that matches
    still matches with anything put before it, and with anything put after
    it behind a whitespace character. *)
Theorem match_survives_surrounding_text (s before after : JsString) (c : N) :
  regex_test hello_pattern s = true →
  is_space c = true →
  regex_test hello_pattern (before ++ s) = true
  ∧ regex_test hello_pattern (before ++ s ++ c :: after) = true.
Proof.
  intros (pre & post & -> & Hpost)%hello_pattern_occurrence Hc. split.
  - apply hello_pattern_occurrence. exists (before ++ pre), post.
    split; [by rewrite <- app_assoc | done].
  - apply hello_pattern_occurrence. exists (before ++ pre), (post ++ c :: after).
    split; [by rewrite <- !app_assoc |]. right.
    destruct Hpost as [-> | (c' & rest & -> & Hc')]; simpl; eauto.
Qed.

Lemma match_survives_witness :
  regex_test hello_pattern (lit "hey /hello") = true
  ∧ regex_test hello_pattern (lit "hey /hello everybody") = true.
Proof.
  apply (match_survives_surrounding_text (lit "/hello") (lit "hey ")
           (lit "everybody") 32%N); reflexivity.
Defined.

Lemma literal_prefix_of_app (t name tail post : JsString) (b : N) :
  b ∉ t →
  name ++ b :: tail = t ++ post →
  ∃ rest, name = t ++ rest ∧ post = rest ++ b :: tail.
Proof.
  revert name. induction t as [|h t IH]; intros name Hb Heq.
  - by exists name.
  - apply not_elem_of_cons in Hb as [Hne Hb].
    destruct name as [|y name]; simpl in Heq.
    + injection Heq as -> _. done.
    + injection Heq as -> Heq. destruct (IH name Hb Heq) as (rest & -> & ->).
      by exists rest.
Qed.

Lemma occurrence_before_tail (name tail pre post : JsString) :
  47%N ∉ (33%N :: tail) →
  name ++ 33%N :: tail = pre ++ lit "/hello" ++ post →
  (post = [] ∨ ∃ c rest, post = c :: rest ∧ is_space c = true) →
  ∃ c post', name = pre ++ lit "/hello" ++ c :: post' ∧ is_space c = true.
Proof.
  intros Htail. revert pre. induction name as [|x name IH]; intros pre Heq Hpost.
  - exfalso. apply Htail. simpl in Heq. rewrite Heq, elem_of_app. right.
    apply list_elem_of_here.
  - destruct pre as [|y pre]; simpl in Heq.
    + injection Heq as -> Heq.
      destruct (literal_prefix_of_app (lit "hello") name tail post 33%N)
        as (rest & -> & ->); [| done |].
      { intros Hin. simpl in Hin.
        repeat (apply elem_of_cons in Hin as [Hin | Hin]; [discriminate |]).
        by apply elem_of_nil in Hin. }
      destruct rest as [|c rest].
      * destruct Hpost as [? | (c & r & [= <- <-] & Hsp)]; done.
      * destruct Hpost as [? | (c' & r & [= <- <-] & Hsp)]; [done |].
        by exists c, rest.
    + injection Heq as -> Heq.
      destruct (IH pre Heq Hpost) as (c & post' & -> & Hc). by exists c, post'.
Qed.

Lemma occurrence_after_head (head body pre post : JsString) :
  47%N ∉ head →
  head ++ body = pre ++ lit "/hello" ++ post →
  ∃ pre', pre = head ++ pre' ∧ body = pre' ++ lit "/hello" ++ post.
Proof.
  revert pre. induction head as [|a head IH]; intros pre Hhead Heq.
  - by exists pre.
  - apply not_elem_of_cons in Hhead as [Hne Hhead].
    destruct pre as [|y pre]; simpl in Heq.
    + injection Heq as -> _. done.
    + injection Heq as -> Heq. destruct (IH pre Hhead Heq) as (pre' & -> & ->).
      by exists pre'.
Qed.

(** X7: the reply triggers the command only through the name it quotes:
    the text the handler sends matches the pattern exactly when the first
    name itself contains "/hello" followed by a whitespace character.  A
    name that merely ends in "/hello" does not do it, the reply goes on
    with "!". *)
Theorem reply_matches_only_through_name (name : JsString) :
  regex_test hello_pattern (greeting name) = true
  ↔ ∃ pre c post,
      name = pre ++ lit "/hello" ++ c :: post ∧ is_space c = true.
Proof.
  rewrite hello_pattern_occurrence. unfold greeting. split.
  - intros (pre & post & Heq & Hpost).
    rewrite (app_assoc waving_hand) in Heq.
    apply occurrence_after_head in Heq as (pre' & -> & Heq).
    + apply occurrence_before_tail in Heq as (c & post' & -> & Hc);
        [by exists pre', c, post' | | done].
      vm_compute. intros Hin.
      repeat (apply elem_of_cons in Hin as [Hin | Hin]; [discriminate |]).
      by apply elem_of_nil in Hin.
    + vm_compute. intros Hin.
      repeat (apply elem_of_cons in Hin as [Hin | Hin]; [discriminate |]).
      by apply elem_of_nil in Hin.
  - intros (pre & c & post & -> & Hc).
    exists (waving_hand ++ lit " Hello " ++ pre),
      (c :: post
       ++ lit "! This is an external command working perfectly! " ++ rocket).
    split; [by rewrite <- !app_assoc | eauto].
Qed.

(** X8: [register] keeps no record of having run: called [n] times on a
    handle whose subscribe-on-text-pattern does not throw, it subscribes
    [n] times with the same pattern and handler, and returns normally. *)
Theorem register_is_not_idempotent (W : Type) (bot : Handle W Closure)
    (n : nat) (w : W) :
  (∀ w', ∃ v, fst (bot (OnText hello_pattern HelloHandler) w') = Ok v) →
  run_calls (run bot (register_times n) w)
  = repeat (OnText hello_pattern HelloHandler) n
  ∧ run_result (run bot (register_times n) w) = Ok ().
Proof.
  intros Hok. revert w. induction n as [|n IH]; intros w; [done |].
  cbn [register_times]. unfold register, mbind, prog_mbind.
  cbn [prog_bind run].
  destruct (Hok w) as [v Hv].
  destruct (bot (OnText hello_pattern HelloHandler) w) as [[v' | e] w'];
    [| done].
  cbn [run_calls run_result repeat]. destruct (IH w') as [-> ->]. done.
Qed.

Lemma register_twice_witness :
  run_calls (run Scenario.silent_bot (register_times 2) ())
  = [OnText hello_pattern HelloHandler; OnText hello_pattern HelloHandler].
Proof.
  refine (proj1 (register_is_not_idempotent unit Scenario.silent_bot 2 () _)).
  intros w'. exists JUndefined. reflexivity.
Defined.

Lemma get_prop_other_field (fields : list (JsString * Data)) (k key : JsString)
    (v : Data) :
  k ≠ key →
  get_prop (JObj ((k, v) :: fields)) key = get_prop (JObj fields) key.
Proof.
  intros Hne. unfold get_prop, own_field. cbn [rev].
  assert (Hfind : ∀ l : list (JsString * Data),
    List.find (fun kv => bool_decide (fst kv = key)) (l ++ [(k, v)])
    = List.find (fun kv => bool_decide (fst kv = key)) l).
  { induction l as [|x l IH]; cbn [app List.find fst].
    - by rewrite bool_decide_eq_false_2.
    - by rewrite IH. }
  by rewrite Hfind.
Qed.

(** X9: the handler looks at [chat] and [from] only: giving the message
    any other property (its [text], the command's arguments, entities)
    changes nothing of what the handler does. *)
Theorem handler_ignores_other_fields (fields : list (JsString * Data))
    (k : JsString) (v : Data) :
  k ≠ lit "chat" →
  k ≠ lit "from" →
  hello_handler (JObj ((k, v) :: fields)) = hello_handler (JObj fields).
Proof.
  intros Hchat Hfrom. unfold hello_handler.
  by rewrite !get_prop_other_field.
Qed.

Lemma handler_ignores_text_witness :
  hello_handler
    (JObj [ (lit "text", JStr (lit "/hello and some arguments"));
            (lit "chat", JObj [ (lit "id", JNum 42) ]);
            (lit "from", JObj [ (lit "first_name", JStr (lit "Bob")) ]) ])
  = hello_handler
      (JObj [ (lit "chat", JObj [ (lit "id", JNum 42) ]);
              (lit "from", JObj [ (lit "first_name", JStr (lit "Bob")) ]) ]).
Proof.
  apply (handler_ignores_other_fields
           [ (lit "chat", JObj [ (lit "id", JNum 42) ]);
             (lit "from", JObj [ (lit "first_name", JStr (lit "Bob")) ]) ]
           (lit "text") (JStr (lit "/hello and some arguments")));
    vm_compute; discriminate.
Defined.

End HelloJsMore.
